(** * Savings-strategy comparison: a shallow embedding of
      [savings_comparison.py] and the properties of its valuation engine.

    Python integers are unbounded, so they are [Z].  Exceptions are
    explicit: a function that can raise returns a [result].

    The float computations are given twice.  The top-level definitions
    ([truediv], [np_mean], [cycle_sum], [grand_total_of],
    [calculate_yearly_savings]) compute in exact rationals ([Q]): they are
    the values before any rounding, and they have no [OverflowError].  The
    integer side of the program (the partition, the ids, the labels, the peak
    deposit, the layout of the report) does not depend on which of the two is
    used.  Module [Binary64] is the arithmetic of IEEE doubles as Python
    performs it, with rounding, overflow and infinities; what is said of the
    value of a float, or of the outcomes of the float operations, is proved
    there.  The two give the same totals while the series sum of the whole
    year stays within 2^53 ([b64_calculate_yearly_savings_exact]), that is
    up to a year of 134217727 days; for one cycle of 134217729 days they
    differ.  They return the same partition for a year below 2^511 days
    ([b64_valuation_returns]); a cycle of more than about 1.9e154 days makes
    the doubles raise [OverflowError] where the exact values return. *)

From Stdlib Require Import ZArith QArith Qpower Qround Qabs List Ascii String Bool Lia Lqa.
From Stdlib Require Import Permutation Sorted DecimalString.
From Stdlib Require DecimalPos DecimalZ.
Import ListNotations.

Local Open Scope Z_scope.

(** ** Exceptions and the error monad *)

Inductive exn : Type :=
| ZeroDivisionError   (* [//], [%] or [/] by zero *)
| IndexError          (* [lengths[0]] on an empty list *)
| ValueError          (* [max] of an empty sequence *)
| OverflowError.      (* an int/int [/] whose quotient exceeds the doubles *)

Definition result (A : Type) : Type := (exn + A)%type.

Definition ret {A : Type} (a : A) : result A := inr a.
Definition raise {A : Type} (e : exn) : result A := inl e.

Definition bind {A B : Type} (c : result A) (k : A -> result B) : result B :=
  match c with
  | inl e => inl e
  | inr a => k a
  end.

Notation "x <- c ;; k" := (bind c (fun x => k))
  (at level 61, c at next level, right associativity).
Notation "' ( x , y ) <- c ;; k" := (bind c (fun p => let '(x, y) := p in k))
  (at level 61, x name, y name, c at next level, right associativity).

(** ** Python primitives used by the program *)

(** [a // b]: floor division; [Z.div] rounds towards minus infinity as
    Python does. *)
Definition floordiv (a b : Z) : result Z :=
  if b =? 0 then raise ZeroDivisionError else ret (a / b).

(** [a % b]: the remainder has the sign of the divisor, as [Z.modulo]. *)
Definition pymod (a b : Z) : result Z :=
  if b =? 0 then raise ZeroDivisionError else ret (a mod b).

(** [a / b] on two ints: true division, here the exact quotient.  The
    double that Python stores is [Binary64.truediv]: it is this quotient
    rounded (365/43 is stored as 4778528674390207/2^49), or [OverflowError]. *)
Definition truediv (a b : Z) : result Q :=
  if b =? 0 then raise ZeroDivisionError else ret (inject_Z a / inject_Z b)%Q.

(** [range(n)] and [range(a, b)]. *)
Definition range (n : Z) : list Z := map Z.of_nat (seq 0 (Z.to_nat n)).
Definition range2 (a b : Z) : list Z :=
  map (fun k => a + Z.of_nat k) (seq 0 (Z.to_nat (b - a))).

(** The builtin [sum] on a list of ints: starts from 0, adds left to right. *)
Definition sum (l : list Z) : Z := fold_left Z.add l 0.

(** The builtin [max] on a list of ints; raises on the empty list. *)
Definition pymax (l : list Z) : result Z :=
  match l with
  | [] => raise ValueError
  | x :: tl => ret (fold_left Z.max tl x)
  end.

(** [l[0]]. *)
Definition index0 (l : list Z) : result Z :=
  match l with
  | [] => raise IndexError
  | x :: _ => ret x
  end.

(** [len(l)] and [len(set(l))]. *)
Definition len {A : Type} (l : list A) : Z := Z.of_nat (List.length l).
Definition len_set (l : list Z) : Z := len (nodup Z.eq_dec l).

(** [np.mean(l)] as the exact quotient [sum/len]; numpy works in float64,
    which is [Binary64.np_mean].  [int(x)] on a float truncates towards
    zero. *)
Definition np_mean (l : list Z) : Q := (inject_Z (sum l) / inject_Z (len l))%Q.
Definition int_of_float (x : Q) : Z := Z.quot (Qnum x) (Zpos (Qden x)).

(** [str(n)] on an int. *)
Definition str (n : Z) : string := NilZero.string_of_int (Z.to_int n).

(** ** Cycle partitioner: [calculate_yearly_savings] *)

(** The first loop: one [append] per index of [range(num_cycles)]. *)
Definition cycle_lengths (base_length remainder num_cycles : Z) : list Z :=
  fold_left
    (fun lengths i =>
       lengths ++ [if i <? remainder then base_length + 1 else base_length])
    (range num_cycles) [].

(** [cycle_sum = (lgth * (lgth + 1)) / 2], a true division, here the exact
    quotient; rounded, and failing on overflow, in [Binary64.cycle_sum]. *)
Definition cycle_sum (lgth : Z) : Q := (inject_Z (lgth * (lgth + 1)) / 2)%Q.

(** The second loop: [grand_total += cycle_sum], starting from 0, without
    the rounding of each addition ([Binary64.grand_total_loop] has it). *)
Definition grand_total_of (lengths : list Z) : Q :=
  fold_left (fun grand_total lgth => (grand_total + cycle_sum lgth)%Q) lengths 0%Q.

(** The function with its total in exact rationals: the list of lengths is
    the code's for every input, the total is the code's while no rounding
    occurs.  [Binary64.calculate_yearly_savings] is the function on doubles,
    which also raises [OverflowError]. *)
Definition calculate_yearly_savings (num_cycles year_days : Z)
  : result (Q * list Z) :=
  base_length <- floordiv year_days num_cycles ;;
  remainder <- pymod year_days num_cycles ;;
  let lengths := cycle_lengths base_length remainder num_cycles in
  ret (grand_total_of lengths, lengths).

(** ** Strategy catalog: [generate_comparison_data] *)

(** One row of the table (one dict of [data]).  A DataFrame column has a
    single dtype, so [TotalSavings] and [TotalCouple], which hold floats for
    the cycle-based rows and ints for the custom ones, are rationals. *)
Record StrategyRecord : Type := mkRecord {
  CyclesPerYear : Z;
  Label : string;
  TotalSavings : Q;
  TotalCouple : Q;
  MaxDailyAmount : Z;
  AvgDaysPerCycle : Q;
  Desc : string
}.

(** The [cycle_labels] dict and [cycle_labels.get(c, default)]. *)
Definition cycle_labels : list (Z * string) :=
  [ (1, "Yearly (1)"); (2, "Semi-Annual (2)"); (4, "Quarterly (4)");
    (6, "Bi-Monthly (6)"); (12, "Monthly (12)"); (24, "Semi-Monthly (24)");
    (26, "Bi-Weekly (26)"); (52, "Weekly (52)"); (365, "Daily (365)") ]%string.

Fixpoint dict_get (d : list (Z * string)) (k : Z) (default : string) : string :=
  match d with
  | [] => default
  | (k', v) :: d' => if k =? k' then v else dict_get d' k default
  end.

(** The body of the loop [for c in target_cycles]: the row appended for one
    cycle count.  [np.mean] is only reached on a non-empty list, after
    [lengths[0]] succeeded. *)
Definition cycle_record (c year_days : Z) : result StrategyRecord :=
  ' (total, lengths) <- calculate_yearly_savings c year_days ;;
  first <- index0 lengths ;;
  let desc :=
    if 1 <? len_set lengths
    then ("~" ++ str (int_of_float (np_mean lengths)) ++ " days")%string
    else (str first ++ " days")%string in
  max_daily <- pymax lengths ;;
  avg <- truediv year_days c ;;
  ret {| CyclesPerYear := c;
         Label := dict_get cycle_labels c (str c);
         TotalSavings := total;
         TotalCouple := (total * 2)%Q;
         MaxDailyAmount := max_daily;
         AvgDaysPerCycle := avg;
         Desc := desc |}.

(** The loop itself: rows are appended to [data] in the order of
    [target_cycles]; the first exception aborts the whole call. *)
Fixpoint cycle_records (target_cycles : list Z) (year_days : Z)
  (data : list StrategyRecord) : result (list StrategyRecord) :=
  match target_cycles with
  | [] => ret data
  | c :: rest =>
      r <- cycle_record c year_days ;;
      cycle_records rest year_days (data ++ [r])
  end.

(** *** The twelve fixed strategies, in the order they are appended *)

Definition fixed_daily : Z := 183.
Definition fixed_daily_record : StrategyRecord :=
  {| CyclesPerYear := 0;
     Label := "Fixed Daily (183฿)";
     TotalSavings := inject_Z (fixed_daily * 365);
     TotalCouple := inject_Z ((fixed_daily * 365) * 2);
     MaxDailyAmount := fixed_daily;
     AvgDaysPerCycle := 0;
     Desc := "Pay same amount every day" |}.

Definition weeks : Z := 52.
Definition week_amounts : list Z := map (fun i => 50 * i) (range2 1 (weeks + 1)).
Definition w_total : Z := sum week_amounts.
Definition week52_record : StrategyRecord :=
  {| CyclesPerYear := 0;
     Label := "52-Week Challenge (x50)";
     TotalSavings := inject_Z w_total;
     TotalCouple := inject_Z (w_total * 2);
     MaxDailyAmount := 2600;
     AvgDaysPerCycle := 7;
     Desc := "Wk1=50, Wk52=2600" |}.

Definition ladder_week_total : Z := sum (map (fun i => 50 * i) (range2 1 8)).
Definition ladder_year_total : Z := ladder_week_total * 52.
Definition weekday_ladder_record : StrategyRecord :=
  {| CyclesPerYear := 0;
     Label := "Weekday Ladder";
     TotalSavings := inject_Z ladder_year_total;
     TotalCouple := inject_Z (ladder_year_total * 2);
     MaxDailyAmount := 350;
     AvgDaysPerCycle := 0;
     Desc := "Mon=50...Sun=350" |}.

Definition reverse52_record : StrategyRecord :=
  {| CyclesPerYear := 0;
     Label := "Reverse 52-Week";
     TotalSavings := inject_Z w_total;
     TotalCouple := inject_Z (w_total * 2);
     MaxDailyAmount := 2600;
     AvgDaysPerCycle := 7;
     Desc := "Start High, End Low" |}.

Definition payday_amount : Z := 3000.
Definition payday_total : Z := payday_amount * 24.
Definition payday_record : StrategyRecord :=
  {| CyclesPerYear := 0;
     Label := "Payday Sync (1st&16th)";
     TotalSavings := inject_Z payday_total;
     TotalCouple := inject_Z (payday_total * 2);
     MaxDailyAmount := payday_amount;
     AvgDaysPerCycle := 15;
     Desc := "3000฿ on Paydays Only" |}.

Definition weekday_amt : Z := 300.
Definition weekday_total : Z := (weekday_amt * 5) * 52.
Definition no_spend_weekends_record : StrategyRecord :=
  {| CyclesPerYear := 0;
     Label := "No-Spend Weekends";
     TotalSavings := inject_Z weekday_total;
     TotalCouple := inject_Z (weekday_total * 2);
     MaxDailyAmount := weekday_amt;
     AvgDaysPerCycle := 0;
     Desc := "M-F 300฿, Sat-Sun 0฿" |}.

Definition agg_ladder_week : Z := sum (map (fun i => 100 * i) (range2 1 8)).
Definition agg_ladder_total : Z := agg_ladder_week * 52.
Definition aggressive_ladder_record : StrategyRecord :=
  {| CyclesPerYear := 0;
     Label := "Aggressive Ladder";
     TotalSavings := inject_Z agg_ladder_total;
     TotalCouple := inject_Z (agg_ladder_total * 2);
     MaxDailyAmount := 700;
     AvgDaysPerCycle := 0;
     Desc := "Mon=100...Sun=700" |}.

Definition coffee_total : Z := 60 * 365.
Definition coffee_record : StrategyRecord :=
  {| CyclesPerYear := 0;
     Label := "Coffee Skip (60฿)";
     TotalSavings := inject_Z coffee_total;
     TotalCouple := inject_Z (coffee_total * 2);
     MaxDailyAmount := 60;
     AvgDaysPerCycle := 0;
     Desc := "Skip 1 coffee/day" |}.

Definition binge_total : Z := 2000 * 52.
Definition weekend_binge_record : StrategyRecord :=
  {| CyclesPerYear := 0;
     Label := "Weekend Binge";
     TotalSavings := inject_Z binge_total;
     TotalCouple := inject_Z (binge_total * 2);
     MaxDailyAmount := 1000;
     AvgDaysPerCycle := 0;
     Desc := "M-F 0฿, Sat/Sun 1k" |}.

Definition date_match_total : Z := (496 * 7 + 465 * 4 + 406) * 10.
Definition date_match_record : StrategyRecord :=
  {| CyclesPerYear := 0;
     Label := "Date Match (x10)";
     TotalSavings := inject_Z date_match_total;
     TotalCouple := inject_Z (date_match_total * 2);
     MaxDailyAmount := 310;
     AvgDaysPerCycle := 30;
     Desc := "Day 1=10฿ ... Day 31=310฿" |}.

Definition odd_even_total : Z := (183 * 50) + (182 * 500).
Definition odd_even_record : StrategyRecord :=
  {| CyclesPerYear := 0;
     Label := "Odd/Even Smasher";
     TotalSavings := inject_Z odd_even_total;
     TotalCouple := inject_Z (odd_even_total * 2);
     MaxDailyAmount := 500;
     AvgDaysPerCycle := 0;
     Desc := "Odd=50฿, Even=500฿" |}.

Definition escalator_total : Z := 750 * 52.
Definition escalator_record : StrategyRecord :=
  {| CyclesPerYear := 0;
     Label := "Workday Escalator";
     TotalSavings := inject_Z escalator_total;
     TotalCouple := inject_Z (escalator_total * 2);
     MaxDailyAmount := 250;
     AvgDaysPerCycle := 0;
     Desc := "M->F 50,100..250. Wknd 0" |}.

Definition custom_records : list StrategyRecord :=
  [ fixed_daily_record; week52_record; weekday_ladder_record;
    reverse52_record; payday_record; no_spend_weekends_record;
    aggressive_ladder_record; coffee_record; weekend_binge_record;
    date_match_record; odd_even_record; escalator_record ].

(** ** Ranking: [pd.DataFrame(data).sort_values(by='TotalSavings', ascending=False)] *)

Definition DataFrame : Type := list StrategyRecord.

(** [data] as it stands when the DataFrame is built: the cycle-based rows in
    the order of [target_cycles], then the twelve fixed rows. *)
Definition build_data (target_cycles : list Z) (year_days : Z) : result DataFrame :=
  data <- cycle_records target_cycles year_days [] ;;
  ret (data ++ custom_records).

(** [sort_values] is pandas code, not code of this program.  The call is made
    with the default [kind='quicksort'], for which pandas documents the result
    (the same rows, keys in descending order) but no order among rows with
    equal keys: only [kind='mergesort'] and [kind='stable'] are stable.  The
    sorting routine is therefore a parameter, constrained by that contract. *)
Definition sorter : Type := DataFrame -> DataFrame.

Definition ranks_before (a b : StrategyRecord) : Prop :=
  (TotalSavings b <= TotalSavings a)%Q.

Definition sort_values_contract (sort_values : sorter) : Prop :=
  forall df, Permutation df (sort_values df) /\
             StronglySorted ranks_before (sort_values df).

Definition generate_comparison_data (sort_values : sorter)
  (target_cycles : list Z) (year_days : Z) : result DataFrame :=
  data <- build_data target_cycles year_days ;;
  ret (sort_values data).

(** Two routines that meet the contract, both insertion sorts.  [goes_first x y]
    decides whether a row [x] is placed in front of a later row [y].  The
    first routine places a row in front of the later rows of equal total,
    which keeps insertion order among ties; the second places it behind
    them. *)
Fixpoint insert_row (goes_first : StrategyRecord -> StrategyRecord -> bool)
  (x : StrategyRecord) (l : DataFrame) : DataFrame :=
  match l with
  | [] => [x]
  | y :: tl => if goes_first x y then x :: l else y :: insert_row goes_first x tl
  end.

Definition insertion_sort (goes_first : StrategyRecord -> StrategyRecord -> bool)
  : sorter :=
  fold_right (insert_row goes_first) [].

Definition first_unless_smaller (x y : StrategyRecord) : bool :=
  Qle_bool (TotalSavings y) (TotalSavings x).


Definition stable_sort_values : sorter := insertion_sort first_unless_smaller.




(** The cycle counts the script itself passes. *)
Definition interesting_cycles : list Z := [1; 2; 4; 6; 12; 24; 26; 52; 365].

(** ** Console report: [explain_strategies] and the script's analysis *)

(** A Python [str] is a sequence of code points, and widths in a format
    spec count code points.  Strings here are UTF-8 byte strings, so the
    length Python sees is the number of bytes that are not a continuation
    byte (10xxxxxx). *)
Definition is_continuation_byte (a : ascii) : bool :=
  let n := N_of_ascii a in ((128 <=? n) && (n <? 192))%N.

Fixpoint pylen (s : string) : nat :=
  match s with
  | EmptyString => 0
  | String a s' => if is_continuation_byte a then pylen s' else S (pylen s')
  end.

(** [s * n] on a string. *)
Fixpoint str_mul (s : string) (n : nat) : string :=
  match n with
  | O => EmptyString
  | S k => (s ++ str_mul s k)%string
  end.

Definition newline : string := String (ascii_of_nat 10) EmptyString.

(** [{s:<width}] and [{s:>width}]: pad with spaces up to [width], never cut. *)
Definition ljust (s : string) (width : nat) : string :=
  (s ++ str_mul " " (width - pylen s))%string.

Definition rjust (s : string) (width : nat) : string :=
  (str_mul " " (width - pylen s) ++ s)%string.

(** Rounding of a non-negative value to the nearest integer, ties to even,
    as the [f] presentation type rounds the exact value of the float. *)
Definition round_half_even (x : Q) : Z :=
  let f := Qfloor x in
  match (x - inject_Z f ?= 1 # 2)%Q with
  | Lt => f
  | Gt => f + 1
  | Eq => if Z.even f then f else f + 1
  end.

(** The [,] option: a comma before every group of three digits, counted
    from the right. *)
Fixpoint group_thousands (digits : string) : string :=
  match digits with
  | EmptyString => EmptyString
  | String a rest =>
      String a
        (if negb (String.length rest =? 0)%nat && (String.length rest mod 3 =? 0)%nat
         then String "," (group_thousands rest)
         else group_thousands rest)
  end.

Definition sign_of (x : Q) : string :=
  match (x ?= 0)%Q with
  | Lt => "-"
  | _ => ""
  end.

(** [{x:,.0f}] and [{x:,.2f}]. *)
Definition format_f0 (x : Q) : string :=
  (sign_of x ++ group_thousands (str (round_half_even (Qabs x))))%string.

Definition format_f2 (x : Q) : string :=
  let m := round_half_even (Qabs x * 100) in
  (sign_of x ++ group_thousands (str (m / 100)) ++ "." ++
   str (m mod 100 / 10) ++ str (m mod 10))%string.

(** The output of [explain_strategies]: the arguments of its [print] calls,
    in order; [print] ends each with a newline.  [df.iterrows()] yields the
    rows in the order of the frame. *)
Definition header_line : string :=
  (ljust "STRATEGY NAME" 25 ++ " | " ++ ljust "HOW IT WORKS (LOGIC)" 35 ++ " | " ++
   rjust "YEARLY TOTAL (฿)" 15)%string.

Definition row_line (row : StrategyRecord) : string :=
  (ljust (Label row) 25 ++ " | " ++ ljust (Desc row) 35 ++ " | " ++
   rjust (format_f0 (TotalSavings row)) 15)%string.

Definition explain_strategies (df : DataFrame) : list string :=
  [ (newline ++ str_mul "=" 80)%string; header_line; str_mul "=" 80 ] ++
  map row_line df ++
  [ (str_mul "=" 80 ++ newline)%string ].

(** [df.iloc[0]]. *)
Definition iloc0 (df : DataFrame) : result StrategyRecord :=
  match df with
  | [] => raise IndexError
  | row :: _ => ret row
  end.

(** The "Optimization Analysis" of the script: [best_config = df.iloc[0]]
    and the three lines printed from it. *)
Definition analysis_lines (df : DataFrame) : result (list string) :=
  best_config <- iloc0 df ;;
  ret [ "--- Optimization Analysis ---";
        "Winner: " ++ Label best_config;
        "Max Savings Possible (1 Person): ฿" ++ format_f2 (TotalSavings best_config)
      ]%string.







(** ** The float computations in IEEE doubles *)

(** The definitions above read every Python float as the real number it
    stands for.  This module is the arithmetic as Python performs it on
    binary64 values: a result is rounded to 53 significant bits, ties to
    even, down to the subnormal step 2^-1074; an int/int true division whose
    rounded quotient reaches 2^1024 raises [OverflowError]; a float addition
    that reaches it gives an infinity.  A finite double is carried as the
    rational it equals.  Negative zero is not distinguished from zero: the
    divisions made here have a non-negative numerator and a positive
    divisor. *)
Module Binary64.

Inductive double : Type :=
| Finite (x : Q)
| Infinity (negative : bool)
| NaN.

Definition pow2 (k : Z) : Q := (2 ^ k)%Q.

(** For [x > 0], the exponent [e] with [2^e <= x < 2^(e+1)]: the difference
    of the bit lengths of numerator and denominator, or one less. *)
Definition ilog2 (x : Q) : Z :=
  let e0 := Z.log2 (Qnum x) - Z.log2 (Zpos (Qden x)) in
  if Qle_bool (pow2 e0) x then e0 else e0 - 1.

(** Rounding of [x > 0] to the nearest multiple of the unit in the last
    place of its binade, ties to even. *)
Definition round_positive (x : Q) : Q :=
  let k := Z.max (ilog2 x - 52) (-1074) in
  (inject_Z (round_half_even (x / pow2 k)) * pow2 k)%Q.

Definition round (x : Q) : Q :=
  match (x ?= 0)%Q with
  | Eq => 0%Q
  | Gt => round_positive x
  | Lt => (- round_positive (- x))%Q
  end.

Definition too_large (x : Q) : bool := Qle_bool (pow2 1024) (Qabs x).

Definition is_negative (x : Q) : bool :=
  match (x ?= 0)%Q with
  | Lt => true
  | _ => false
  end.

(** [a / b] on two ints: the exact quotient, rounded once. *)
Definition truediv (a b : Z) : result double :=
  if b =? 0 then raise ZeroDivisionError
  else
    let r := round (inject_Z a / inject_Z b) in
    if too_large r then raise OverflowError else ret (Finite r).

(** [x + y] on two floats. *)
Definition add (x y : double) : double :=
  match x, y with
  | NaN, _ | _, NaN => NaN
  | Infinity s, Infinity t => if Bool.eqb s t then Infinity s else NaN
  | Infinity s, Finite _ | Finite _, Infinity s => Infinity s
  | Finite a, Finite b =>
      let r := round (a + b) in
      if too_large r then Infinity (is_negative r) else Finite r
  end.

(** [cycle_sum = (lgth * (lgth + 1)) / 2]. *)
Definition cycle_sum (lgth : Z) : result double := truediv (lgth * (lgth + 1)) 2.

(** The loop [for lgth in lengths]: the quotient is taken first, so an
    overflow stops the loop; [grand_total] starts as the int 0, which the
    first addition turns into the float 0.0. *)
Fixpoint grand_total_loop (lengths : list Z) (grand_total : double)
  : result double :=
  match lengths with
  | [] => ret grand_total
  | lgth :: rest =>
      c <- cycle_sum lgth ;;
      grand_total_loop rest (add grand_total c)
  end.

Definition calculate_yearly_savings (num_cycles year_days : Z)
  : result (double * list Z) :=
  base_length <- floordiv year_days num_cycles ;;
  remainder <- pymod year_days num_cycles ;;
  let lengths := cycle_lengths base_length remainder num_cycles in
  grand_total <- grand_total_loop lengths (Finite 0) ;;
  ret (grand_total, lengths).

(** A double that is not below zero: a finite value [>= 0] or the positive
    infinity. *)
Definition nonnegative (d : double) : Prop :=
  match d with
  | Finite x => (0 <= x)%Q
  | Infinity negative => negative = false
  | NaN => False
  end.

(** The float of an int held by an integer array, or of a small int operand
    such as the [2] of [total * 2]: the nearest double.  (Lengths and counts
    are below 2^63, where no conversion overflows.) *)
Definition of_int (n : Z) : double := Finite (round (inject_Z n)).

(** [x * y] on two floats: an overflow gives an infinity. *)
Definition mul (x y : double) : double :=
  match x, y with
  | NaN, _ | _, NaN => NaN
  | Infinity s, Infinity t => Infinity (xorb s t)
  | Infinity s, Finite b | Finite b, Infinity s =>
      match (b ?= 0)%Q with
      | Eq => NaN
      | Lt => Infinity (negb s)
      | Gt => Infinity s
      end
  | Finite a, Finite b =>
      let r := round (a * b) in
      if too_large r then Infinity (is_negative r) else Finite r
  end.

(** [x / y] on two numpy floats: no exception, a division by zero gives an
    infinity or a NaN. *)
Definition div (x y : double) : double :=
  match x, y with
  | NaN, _ | _, NaN => NaN
  | Infinity _, Infinity _ => NaN
  | Infinity s, Finite b => Infinity (xorb s (is_negative b))
  | Finite _, Infinity _ => Finite 0
  | Finite a, Finite b =>
      match (b ?= 0)%Q with
      | Eq =>
          match (a ?= 0)%Q with
          | Eq => NaN
          | Lt => Infinity true
          | Gt => Infinity false
          end
      | _ =>
          let r := round (a / b) in
          if too_large r then Infinity (is_negative r) else Finite r
      end
  end.

(** The ways of adding the elements of an integer array in float64.  Every
    element is converted and the additions are made in some order and
    grouping, possibly from a zero: numpy adds a short array from left to
    right and a long one by blocks and pairs, and the order is not part of
    its interface. *)
Inductive float_sum_of : list Z -> double -> Prop :=
| sum_of_nothing : float_sum_of [] (Finite 0)
| sum_of_one (n : Z) : float_sum_of [n] (of_int n)
| sum_of_parts (l1 l2 : list Z) (d1 d2 : double) :
    float_sum_of l1 d1 -> float_sum_of l2 d2 ->
    float_sum_of (l1 ++ l2) (add d1 d2)
| sum_reordered (l l' : list Z) (d : double) :
    Permutation l l' -> float_sum_of l d -> float_sum_of l' d.

(** numpy's summation is a parameter of the model, bound by this contract
    only. *)
Definition summation : Type := list Z -> double.

Definition summation_contract (float_sum : summation) : Prop :=
  forall l, float_sum_of l (float_sum l).

(** The summation from left to right, one routine that meets the
    contract. *)
Definition sequential_sum : summation :=
  fun l => fold_left (fun acc n => add acc (of_int n)) l (Finite 0).

(** [np.mean(l)] on a list of ints: the float64 sum divided by the count. *)
Definition np_mean (float_sum : summation) (l : list Z) : double :=
  div (float_sum l) (of_int (len l)).

(** [int(x)] on a float: truncation, and an exception on an infinity or a
    NaN. *)
Definition int_of_double (x : double) : result Z :=
  match x with
  | Finite v => ret (int_of_float v)
  | Infinity _ => raise OverflowError
  | NaN => raise ValueError
  end.

(** One row of the table, with the floats as doubles. *)
Record StrategyRecord : Type := mkRecord {
  CyclesPerYear : Z;
  Label : string;
  TotalSavings : double;
  TotalCouple : double;
  MaxDailyAmount : Z;
  AvgDaysPerCycle : double;
  Desc : string
}.

(** The body of the loop [for c in target_cycles], statement by statement:
    the valuation, [lengths[0]], then the mean when the lengths differ, then
    the fields of the dict in the order they are written. *)
Definition cycle_record (float_sum : summation) (c year_days : Z)
  : result StrategyRecord :=
  ' (total, lengths) <- calculate_yearly_savings c year_days ;;
  first <- index0 lengths ;;
  desc <- (if 1 <? len_set lengths
           then avg_len <- int_of_double (np_mean float_sum lengths) ;;
                ret ("~" ++ str avg_len ++ " days")%string
           else ret (str first ++ " days")%string) ;;
  max_daily <- pymax lengths ;;
  avg <- truediv year_days c ;;
  ret {| CyclesPerYear := c;
         Label := dict_get cycle_labels c (str c);
         TotalSavings := total;
         TotalCouple := mul total (of_int 2);
         MaxDailyAmount := max_daily;
         AvgDaysPerCycle := avg;
         Desc := desc |}.

(** The loop itself; the first exception aborts the whole call. *)
Fixpoint cycle_records (float_sum : summation) (target_cycles : list Z)
  (year_days : Z) (data : list StrategyRecord) : result (list StrategyRecord) :=
  match target_cycles with
  | [] => ret data
  | c :: rest =>
      r <- cycle_record float_sum c year_days ;;
      cycle_records float_sum rest year_days (data ++ [r])
  end.

End Binary64.

(** How far the two readings agree: the largest integer up to which every
    integer is a double. *)
Definition exact_integers : Z := 2 ^ 53.

(** A length below which no cycle sum exceeds the doubles (the largest one
    is about 1.9e154). *)
Definition no_overflow_days : Z := 2 ^ 511.

(** ** Reference quantities of the specification *)

(** The arithmetic series 1 + 2 + ... + L as an integer. *)
Definition triangular (L : Z) : Z := L * (L + 1) / 2.


(** * Properties *)

(** One goal per fixed row of the catalog. *)
Ltac each_custom_record tac :=
  unfold custom_records; repeat (apply Forall_cons; [tac|]); apply Forall_nil.

(** ** The program on its own input *)

Example quarterly_partition :
  exists total,
    calculate_yearly_savings 4 365 = ret (total, [92; 91; 91; 91]) /\
    (total == 16836)%Q.
Proof. eexists. split; [reflexivity|]. vm_compute. reflexivity. Qed.

Example unlabelled_row :
  exists r,
    cycle_record 5 365 = ret r /\
    Label r = "5"%string /\ Desc r = "73 days"%string /\ MaxDailyAmount r = 73.
Proof. eexists. split; [reflexivity|]. repeat split. Qed.

Example semi_annual_row :
  exists r,
    cycle_record 2 365 = ret r /\
    Label r = "Semi-Annual (2)"%string /\ Desc r = "~182 days"%string /\
    MaxDailyAmount r = 183 /\ (AvgDaysPerCycle r == 365 # 2)%Q.
Proof. eexists. split; [reflexivity|]. repeat split. Qed.

(** The ranking of the script's catalog when ties keep insertion order. *)
Example script_ranking :
  exists table,
    generate_comparison_data stable_sort_values interesting_cycles 365 = ret table /\
    map Label table =
      [ "Aggressive Ladder"; "Weekend Binge"; "Odd/Even Smasher";
        "No-Spend Weekends"; "Weekday Ladder"; "Payday Sync (1st&16th)";
        "52-Week Challenge (x50)"; "Reverse 52-Week"; "Yearly (1)";
        "Fixed Daily (183฿)"; "Date Match (x10)"; "Workday Escalator";
        "Semi-Annual (2)"; "Coffee Skip (60฿)"; "Quarterly (4)";
        "Bi-Monthly (6)"; "Monthly (12)"; "Semi-Monthly (24)";
        "Bi-Weekly (26)"; "Weekly (52)"; "Daily (365)" ]%string.
Proof. eexists. split; [reflexivity|]. vm_compute. reflexivity. Qed.

(** ** Lists and sums *)

Lemma fold_left_append_map {A B : Type} (f : A -> B) (l : list A) (init : list B) :
  fold_left (fun acc i => acc ++ [f i]) l init = init ++ map f l.
Proof.
  revert init; induction l as [|a l IH]; intros init; simpl.
  - now rewrite app_nil_r.
  - rewrite IH, <- app_assoc. reflexivity.
Qed.

Lemma map_seq_const {B : Type} (f : nat -> B) (b : B) (n start : nat) :
  (forall i, (start <= i < start + n)%nat -> f i = b) ->
  map f (seq start n) = repeat b n.
Proof.
  revert start; induction n as [|n IH]; intros start Hf; simpl; [reflexivity|].
  rewrite Hf by lia. f_equal. apply IH. intros i Hi. apply Hf. lia.
Qed.

Lemma fold_left_add_shift (l : list Z) (a : Z) :
  fold_left Z.add l a = a + sum l.
Proof.
  unfold sum. revert a; induction l as [|x l IH]; intros a; simpl.
  - lia.
  - rewrite IH, (IH x). lia.
Qed.

Lemma sum_cons (x : Z) (l : list Z) : sum (x :: l) = x + sum l.
Proof. unfold sum at 1. simpl. apply fold_left_add_shift. Qed.

Lemma sum_app (l1 l2 : list Z) : sum (l1 ++ l2) = sum l1 + sum l2.
Proof.
  induction l1 as [|x l1 IH]; simpl.
  - reflexivity.
  - rewrite !sum_cons, IH. lia.
Qed.

Lemma sum_repeat (a : Z) (n : nat) : sum (repeat a n) = a * Z.of_nat n.
Proof.
  induction n as [|n IH].
  - simpl. unfold sum. simpl. lia.
  - cbn [repeat]. rewrite sum_cons, IH. lia.
Qed.

(** ** The partition *)

Lemma cycle_lengths_map (q r c : Z) :
  cycle_lengths q r c = map (fun i => if i <? r then q + 1 else q) (range c).
Proof. unfold cycle_lengths. now rewrite fold_left_append_map. Qed.

Lemma cycle_lengths_shape (q r c : Z) :
  0 <= r <= c ->
  cycle_lengths q r c = repeat (q + 1) (Z.to_nat r) ++ repeat q (Z.to_nat (c - r)).
Proof.
  intros Hr. rewrite cycle_lengths_map. unfold range. rewrite map_map.
  replace (Z.to_nat c) with (Z.to_nat r + Z.to_nat (c - r))%nat by lia.
  rewrite seq_app, map_app. f_equal.
  - apply map_seq_const. intros i Hi.
    destruct (Z.ltb_spec (Z.of_nat i) r); [reflexivity | lia].
  - apply map_seq_const. intros i Hi.
    destruct (Z.ltb_spec (Z.of_nat i) r); [lia | reflexivity].
Qed.

Lemma calculate_yearly_savings_ok (c yd : Z) :
  c <> 0 ->
  calculate_yearly_savings c yd =
    ret (grand_total_of (cycle_lengths (yd / c) (yd mod c) c),
         cycle_lengths (yd / c) (yd mod c) c).
Proof.
  intros Hc. unfold calculate_yearly_savings, floordiv, pymod.
  destruct (Z.eqb_spec c 0); [contradiction | reflexivity].
Qed.

Lemma sum_cycle_lengths (c yd : Z) :
  1 <= c -> sum (cycle_lengths (yd / c) (yd mod c) c) = yd.
Proof.
  intros Hc.
  pose proof (Z.mod_pos_bound yd c ltac:(lia)) as Hr.
  pose proof (Z.div_mod yd c ltac:(lia)) as Hdm.
  rewrite cycle_lengths_shape by lia. rewrite sum_app, !sum_repeat.
  rewrite !Z2Nat.id by lia. lia.
Qed.

Lemma len_cycle_lengths (q r c : Z) : len (cycle_lengths q r c) = Z.max c 0.
Proof.
  rewrite cycle_lengths_map. unfold len, range.
  rewrite !length_map, length_seq. lia.
Qed.



(** ** The valuation *)

Lemma consecutive_product_even (L : Z) : exists k, L * (L + 1) = 2 * k.
Proof.
  destruct (Z.Even_or_Odd L) as [[k ->]|[k ->]].
  - exists (k * (2 * k + 1)). lia.
  - exists ((2 * k + 1) * (k + 1)). lia.
Qed.

Lemma triangular_double (L : Z) : 2 * triangular L = L * (L + 1).
Proof.
  unfold triangular. destruct (consecutive_product_even L) as [k ->].
  rewrite (Z.mul_comm 2 k), Z.div_mul by lia. lia.
Qed.

(** The true division by 2 loses nothing: the quotient is the integer
    [triangular lgth]. *)
Lemma cycle_sum_triangular (lgth : Z) : (cycle_sum lgth == inject_Z (triangular lgth))%Q.
Proof.
  unfold cycle_sum. rewrite <- triangular_double, inject_Z_mult. field.
Qed.

Lemma grand_total_loop (lengths : list Z) (acc : Q) :
  (fold_left (fun g lgth => g + cycle_sum lgth) lengths acc ==
   acc + inject_Z (sum (map triangular lengths)))%Q.
Proof.
  revert acc; induction lengths as [|x l IH]; intros acc; simpl.
  - unfold sum; simpl. ring.
  - rewrite IH, sum_cons, inject_Z_plus, cycle_sum_triangular. ring.
Qed.

Lemma grand_total_of_series (lengths : list Z) :
  (grand_total_of lengths == inject_Z (sum (map triangular lengths)))%Q.
Proof. unfold grand_total_of. rewrite grand_total_loop. ring. Qed.

(** C9.  With more cycles than days ([cycle_count > year_days >= 0]) the
    call returns normally: [year_days] cycles of one day followed by
    zero-length cycles, of which there is at least one; a zero-length cycle
    adds 0, so the total is that of the one-day cycles alone, [year_days]. *)
Theorem degenerate_partition_accepted (cycle_count year_days : Z) :
  1 <= cycle_count -> 0 <= year_days < cycle_count ->
  exists total lengths,
    calculate_yearly_savings cycle_count year_days = ret (total, lengths) /\
    lengths = repeat 1 (Z.to_nat year_days) ++
              repeat 0 (Z.to_nat (cycle_count - year_days)) /\
    In 0 lengths /\
    (cycle_sum 0 == 0)%Q /\
    (total == grand_total_of (repeat 1%Z (Z.to_nat year_days)))%Q /\
    (total == inject_Z year_days)%Q.
Proof.
  intros Hc Hy.
  assert (Hshape : cycle_lengths (year_days / cycle_count)
                     (year_days mod cycle_count) cycle_count =
                   repeat 1 (Z.to_nat year_days) ++
                   repeat 0 (Z.to_nat (cycle_count - year_days))).
  { rewrite Z.div_small, Z.mod_small by lia.
    rewrite cycle_lengths_shape by lia. reflexivity. }
  assert (Hones : forall n, sum (map triangular (repeat 1 n)) = Z.of_nat n).
  { intros n. rewrite map_repeat. change (triangular 1) with 1.
    rewrite sum_repeat. lia. }
  eexists _, _. split; [apply calculate_yearly_savings_ok; lia|].
  rewrite Hshape.
  split; [reflexivity|]. split; [|split; [vm_compute; reflexivity|split]].
  - apply in_or_app. right.
    destruct (Z.to_nat (cycle_count - year_days)) eqn:E; [lia | now left].
  - rewrite !grand_total_of_series, map_app, sum_app, Hones, map_repeat.
    change (triangular 0) with 0. rewrite sum_repeat.
    apply inject_Z_injective. lia.
  - rewrite grand_total_of_series, map_app, sum_app, Hones, map_repeat.
    change (triangular 0) with 0. rewrite sum_repeat.
    apply inject_Z_injective. lia.
Qed.

Lemma degenerate_partition_accepted_witness :
  exists total lengths,
    calculate_yearly_savings 5 3 = ret (total, lengths) /\
    lengths = repeat 1 (Z.to_nat 3) ++ repeat 0 (Z.to_nat (5 - 3)) /\
    In 0 lengths /\
    (cycle_sum 0 == 0)%Q /\
    (total == grand_total_of (repeat 1%Z (Z.to_nat 3)))%Q /\
    (total == inject_Z 3)%Q.
Proof. apply (degenerate_partition_accepted 5 3); lia. Defined.

(** ** The sorting routines *)

Section InsertionSort.

Variable goes_first : StrategyRecord -> StrategyRecord -> bool.
Hypothesis goes_first_true :
  forall x y, goes_first x y = true -> ranks_before x y.
Hypothesis goes_first_false :
  forall x y, goes_first x y = false -> ranks_before y x.

Lemma insert_row_perm (x : StrategyRecord) (l : DataFrame) :
  Permutation (x :: l) (insert_row goes_first x l).
Proof.
  induction l as [|y tl IH]; simpl.
  - apply Permutation_refl.
  - destruct (goes_first x y).
    + apply Permutation_refl.
    + eapply perm_trans; [apply perm_swap|]. now apply perm_skip.
Qed.

Lemma insert_row_sorted (x : StrategyRecord) (l : DataFrame) :
  StronglySorted ranks_before l ->
  StronglySorted ranks_before (insert_row goes_first x l).
Proof.
  induction 1 as [|y tl Hs IH Hy]; simpl.
  - constructor; constructor.
  - destruct (goes_first x y) eqn:E.
    + constructor; [now constructor|].
      apply goes_first_true in E. constructor; [exact E|].
      eapply Forall_impl; [|exact Hy].
      intros z Hz. unfold ranks_before in *. eapply Qle_trans; eassumption.
    + constructor; [exact IH|].
      apply goes_first_false in E.
      eapply Permutation_Forall; [apply insert_row_perm|].
      now constructor.
Qed.

Lemma insertion_sort_meets_contract :
  sort_values_contract (insertion_sort goes_first).
Proof.
  intros df. unfold insertion_sort.
  induction df as [|x df [IHp IHs]]; simpl.
  - split; constructor.
  - split.
    + eapply perm_trans; [apply perm_skip, IHp | apply insert_row_perm].
    + now apply insert_row_sorted.
Qed.

End InsertionSort.

Lemma stable_sort_values_meets_contract : sort_values_contract stable_sort_values.
Proof.
  apply insertion_sort_meets_contract; unfold first_unless_smaller, ranks_before.
  - intros x y H. now apply Qle_bool_iff.
  - intros x y H. apply Qlt_le_weak, Qnot_le_lt. intros Hle.
    apply Qle_bool_iff in Hle. congruence.
Qed.




(** ** Rows of the cycle-based strategies *)

Lemma fold_left_max_spec (l : list Z) (x : Z) :
  In (fold_left Z.max l x) (x :: l) /\
  Forall (fun y => y <= fold_left Z.max l x) (x :: l).
Proof.
  revert x; induction l as [|a l IH]; intros x; simpl.
  - split; [now left | constructor; [lia | constructor]].
  - destruct (IH (Z.max x a)) as [Hin Hall].
    inversion Hall as [|? ? Hm Hl]; subst. split.
    + destruct Hin as [Hin|Hin]; [|now right; right].
      rewrite <- Hin. destruct (Z.max_spec x a) as [[_ ->]|[_ ->]]; auto.
    + constructor; [lia|]. constructor; [lia | exact Hl].
Qed.


Lemma cycle_lengths_empty (q r c : Z) : c <= 0 -> cycle_lengths q r c = [].
Proof.
  intros Hc. rewrite cycle_lengths_map. unfold range.
  replace (Z.to_nat c) with 0%nat by lia. reflexivity.
Qed.

Lemma cycle_lengths_nonempty (q r c : Z) :
  1 <= c -> exists x tl, cycle_lengths q r c = x :: tl.
Proof.
  intros Hc. rewrite cycle_lengths_map. unfold range.
  destruct (Z.to_nat c) as [|n] eqn:E; [lia|]. simpl. eauto.
Qed.

(** For a positive cycle count the row is built, from the partition and its
    maximum. *)
Lemma cycle_record_ok (c yd : Z) :
  1 <= c ->
  exists r,
    cycle_record c yd = ret r /\
    CyclesPerYear r = c /\
    TotalSavings r = grand_total_of (cycle_lengths (yd / c) (yd mod c) c) /\
    TotalCouple r = (TotalSavings r * 2)%Q /\
    pymax (cycle_lengths (yd / c) (yd mod c) c) = ret (MaxDailyAmount r).
Proof.
  intros Hc. unfold cycle_record.
  rewrite calculate_yearly_savings_ok by lia. cbn [bind ret].
  destruct (cycle_lengths_nonempty (yd / c) (yd mod c) c Hc) as (x & tl & ->).
  unfold truediv. destruct (Z.eqb_spec c 0); [lia|].
  cbn [index0 pymax bind ret]. eexists. split; [reflexivity|].
  cbn. repeat split; reflexivity.
Qed.

(** For a cycle count of 0 the partitioner's [//] raises; for a negative one
    the partitioner returns an empty partition and [lengths[0]] raises. *)
Lemma cycle_record_nonpositive (c yd : Z) :
  c <= 0 ->
  cycle_record c yd = raise (if c =? 0 then ZeroDivisionError else IndexError).
Proof.
  intros Hc. unfold cycle_record. destruct (Z.eqb_spec c 0) as [->|Hne].
  - reflexivity.
  - rewrite calculate_yearly_savings_ok by lia. cbn [bind ret].
    rewrite cycle_lengths_empty by lia. reflexivity.
Qed.


(** The loop returns the rows of its cycle counts, in order, behind the
    rows it started from. *)
Lemma cycle_records_inv (tc : list Z) (yd : Z) (data out : DataFrame) :
  cycle_records tc yd data = ret out ->
  exists rows, out = data ++ rows /\
               Forall2 (fun c r => cycle_record c yd = ret r) tc rows.
Proof.
  revert data; induction tc as [|c tc IH]; intros data H; simpl in H.
  - injection H as <-. exists []. rewrite app_nil_r. split; constructor.
  - destruct (cycle_record c yd) as [e|r] eqn:E; simpl in H; [discriminate|].
    apply IH in H. destruct H as (rows & -> & Hrows).
    exists (r :: rows). rewrite <- app_assoc. split; [reflexivity|].
    now constructor.
Qed.

Lemma cycle_records_ok (tc : list Z) (yd : Z) (data : DataFrame) :
  Forall (fun c => 1 <= c) tc ->
  exists rows, cycle_records tc yd data = ret (data ++ rows) /\
               Forall2 (fun c r => cycle_record c yd = ret r) tc rows.
Proof.
  intros Htc. revert data; induction Htc as [|c tc Hc _ IH]; intros data; simpl.
  - exists []. rewrite app_nil_r. split; constructor.
  - destruct (cycle_record_ok c yd Hc) as (r & Er & _). rewrite Er. simpl.
    destruct (IH (data ++ [r])) as (rows & -> & Hrows).
    exists (r :: rows). rewrite <- app_assoc. split; [reflexivity|].
    now constructor.
Qed.

Lemma cycle_records_fail (pre post : list Z) (c yd : Z) (data : DataFrame) :
  Forall (fun c => 1 <= c) pre -> c <= 0 ->
  cycle_records (pre ++ c :: post) yd data =
    raise (if c =? 0 then ZeroDivisionError else IndexError).
Proof.
  intros Hpre Hc. revert data; induction Hpre as [|p pre Hp _ IH]; intros data; simpl.
  - now rewrite cycle_record_nonpositive.
  - destruct (cycle_record_ok p yd Hp) as (r & -> & _). simpl. apply IH.
Qed.

(** ** The assembled table *)

(** The table exists exactly for positive cycle counts, and is the sorted
    frame of the cycle rows followed by the fixed rows. *)
Lemma generate_comparison_data_ok (s : sorter) (tc : list Z) (yd : Z) :
  Forall (fun c => 1 <= c) tc ->
  exists rows,
    Forall2 (fun c r => cycle_record c yd = ret r) tc rows /\
    build_data tc yd = ret (rows ++ custom_records) /\
    generate_comparison_data s tc yd = ret (s (rows ++ custom_records)).
Proof.
  intros Htc. unfold generate_comparison_data, build_data.
  destruct (cycle_records_ok tc yd [] Htc) as (rows & -> & Hrows).
  exists rows. simpl. auto.
Qed.

(** A property of every cycle row and of every fixed row holds for every
    row of the table, whatever the sorting routine does with the order. *)
Lemma table_rows_ind (P : StrategyRecord -> Prop) (s : sorter) (tc : list Z) (yd : Z) :
  sort_values_contract s ->
  Forall (fun c => 1 <= c) tc ->
  (forall c r, 1 <= c -> cycle_record c yd = ret r -> P r) ->
  Forall P custom_records ->
  exists table, generate_comparison_data s tc yd = ret table /\ Forall P table.
Proof.
  intros Hs Htc Hcycle Hcustom.
  destruct (generate_comparison_data_ok s tc yd Htc) as (rows & Hrows & _ & ->).
  eexists. split; [reflexivity|].
  eapply Permutation_Forall; [apply Hs|].
  apply Forall_app. split; [|exact Hcustom].
  clear - Hrows Htc Hcycle. induction Hrows as [|c r tc rows Hr _ IH]; constructor.
  - inversion Htc; subst. eauto.
  - inversion Htc; subst. auto.
Qed.

Lemma cycle_lengths_members (q r c L : Z) :
  In L (cycle_lengths q r c) -> L = q + 1 \/ L = q.
Proof.
  rewrite cycle_lengths_map. intros H. apply in_map_iff in H.
  destruct H as (i & <- & _). destruct (i <? r); auto.
Qed.

Lemma sum_nonneg (l : list Z) : Forall (fun x => 0 <= x) l -> 0 <= sum l.
Proof.
  induction 1 as [|x l Hx _ IH]; [unfold sum; simpl; lia|].
  rewrite sum_cons. lia.
Qed.


Lemma triangular_ge (L : Z) : 0 <= L -> L <= triangular L.
Proof. intros HL. pose proof (triangular_double L). nia. Qed.


(** Cutting a span of days into cycles never raises the total: the series
    sum of the whole span bounds the sum of the series sums of its parts. *)
Lemma triangular_superadditive (l : list Z) :
  Forall (fun x => 0 <= x) l -> sum (map triangular l) <= triangular (sum l).
Proof.
  induction 1 as [|x l Hx Hl IH]; [unfold sum; simpl; reflexivity|].
  cbn [map]. rewrite !sum_cons.
  pose proof (sum_nonneg l Hl).
  pose proof (triangular_double x). pose proof (triangular_double (sum l)).
  pose proof (triangular_double (x + sum l)). nia.
Qed.

Lemma cycle_lengths_nonneg (c yd : Z) :
  1 <= c -> 0 <= yd ->
  Forall (fun x => 0 <= x) (cycle_lengths (yd / c) (yd mod c) c).
Proof.
  intros Hc Hy. apply Forall_forall. intros L HL.
  apply cycle_lengths_members in HL.
  pose proof (Z.div_pos yd c Hy ltac:(lia)). lia.
Qed.





Lemma pymax_intro (l : list Z) (M : Z) :
  In M l -> Forall (fun y => y <= M) l -> pymax l = ret M.
Proof.
  destruct l as [|x tl]; [contradiction|]. intros Hin Hall. simpl. f_equal.
  destruct (fold_left_max_spec tl x) as [Hin' Hall'].
  rewrite Forall_forall in Hall, Hall'.
  pose proof (Hall _ Hin'). pose proof (Hall' _ Hin). lia.
Qed.

(** The longest cycle is the quotient, plus one when the division leaves a
    remainder. *)
Lemma pymax_cycle_lengths (c yd : Z) :
  1 <= c ->
  pymax (cycle_lengths (yd / c) (yd mod c) c) =
    ret (if 0 <? yd mod c then yd / c + 1 else yd / c).
Proof.
  intros Hc.
  pose proof (Z.mod_pos_bound yd c ltac:(lia)) as Hr.
  rewrite cycle_lengths_shape by lia.
  apply pymax_intro.
  - apply in_or_app. destruct (Z.ltb_spec 0 (yd mod c)).
    + left. destruct (Z.to_nat (yd mod c)) eqn:E; [lia | now left].
    + right. destruct (Z.to_nat (c - yd mod c)) eqn:E; [lia | now left].
  - apply Forall_app. split; apply Forall_forall; intros y Hy.
    + destruct (Z.ltb_spec 0 (yd mod c)).
      * apply repeat_spec in Hy. lia.
      * replace (Z.to_nat (yd mod c)) with 0%nat in Hy by lia. contradiction.
    + apply repeat_spec in Hy. destruct (Z.ltb_spec 0 (yd mod c)); lia.
Qed.



(** ** The fixed strategies and the top of the ranking *)

Lemma custom_record_in_table (s : sorter) (rows : DataFrame) (r : StrategyRecord) :
  sort_values_contract s -> In r custom_records ->
  In r (s (rows ++ custom_records)).
Proof.
  intros Hs Hin. eapply Permutation_in; [apply Hs|].
  apply in_or_app. now right.
Qed.

(** No cycle-based row of a 365-day year totals more than the single
    yearly cycle, 66795. *)
Lemma cycle_total_at_most_yearly (c : Z) (r : StrategyRecord) :
  1 <= c -> cycle_record c 365 = ret r -> (TotalSavings r <= 66795)%Q.
Proof.
  intros Hc Hr.
  destruct (cycle_record_ok c 365 Hc) as (r' & Hr' & _ & Htot & _).
  rewrite Hr in Hr'. injection Hr' as <-. rewrite Htot, grand_total_of_series.
  change 66795%Q with (inject_Z (triangular 365)). rewrite <- Zle_Qle.
  etransitivity; [apply triangular_superadditive, cycle_lengths_nonneg; lia|].
  rewrite sum_cycle_lengths by lia. reflexivity.
Qed.

(** C10.  For a 365-day year and any list of cycle counts [>= 1], empty or
    not, the first row of the table is the Aggressive Ladder, with total
    145600: every cycle-based total is at most 66795 and every other fixed
    row totals at most 104000. *)
Theorem aggressive_ladder_ranks_first (sort_values : sorter) (target_cycles : list Z) :
  sort_values_contract sort_values ->
  Forall (fun c => 1 <= c) target_cycles ->
  exists rest,
    generate_comparison_data sort_values target_cycles 365 =
      ret (aggressive_ladder_record :: rest) /\
    Label aggressive_ladder_record = "Aggressive Ladder"%string /\
    (TotalSavings aggressive_ladder_record == 145600)%Q /\
    (forall c r, In c target_cycles -> cycle_record c 365 = ret r ->
                 (TotalSavings r <= 66795)%Q) /\
    Forall (fun r => r = aggressive_ladder_record \/ (TotalSavings r <= 104000)%Q)
           custom_records.
Proof.
  intros Hs Htc.
  assert (Hcustom : Forall (fun r => r = aggressive_ladder_record \/
                                     (TotalSavings r <= 104000)%Q) custom_records).
  { each_custom_record
      ltac:(first [ left; reflexivity | right; vm_compute; discriminate ]). }
  destruct (generate_comparison_data_ok sort_values target_cycles 365 Htc)
    as (rows & _ & _ & Hgen).
  assert (Hcycle : forall c r, 1 <= c -> cycle_record c 365 = ret r ->
                     r = aggressive_ladder_record \/ (TotalSavings r <= 104000)%Q).
  { intros c r Hc Hr. right.
    eapply Qle_trans; [eapply cycle_total_at_most_yearly; eassumption|].
    vm_compute; discriminate. }
  destruct (table_rows_ind _ sort_values target_cycles 365 Hs Htc Hcycle Hcustom)
    as (table & Hgen' & Hall).
  assert (Hin : In aggressive_ladder_record table).
  { rewrite Hgen in Hgen'. injection Hgen' as <-.
    apply custom_record_in_table; trivial. unfold custom_records; simpl; tauto. }
  assert (Hsorted : StronglySorted ranks_before table).
  { rewrite Hgen in Hgen'. injection Hgen' as <-. apply Hs. }
  destruct table as [|h rest]; [contradiction|].
  assert (Hh : h = aggressive_ladder_record).
  { destruct Hin as [Hin|Hin]; [exact Hin|].
    destruct (Forall_inv Hall) as [Hh|Hh]; [exact Hh|].
    apply StronglySorted_inv in Hsorted. destruct Hsorted as [_ Hrest].
    rewrite Forall_forall in Hrest. specialize (Hrest _ Hin).
    unfold ranks_before in Hrest. exfalso.
    assert (Habs : (TotalSavings aggressive_ladder_record <= 104000)%Q)
      by (eapply Qle_trans; eassumption).
    vm_compute in Habs. now apply Habs. }
  subst h. exists rest. split; [exact Hgen'|].
  split; [reflexivity|]. split; [vm_compute; reflexivity|].
  split; [|exact Hcustom].
  intros c r Hc Hr. rewrite Forall_forall in Htc.
  eapply cycle_total_at_most_yearly; eauto.
Qed.

Lemma aggressive_ladder_ranks_first_witness :
  exists rest,
    generate_comparison_data stable_sort_values interesting_cycles 365 =
      ret (aggressive_ladder_record :: rest) /\
    Label aggressive_ladder_record = "Aggressive Ladder"%string /\
    (TotalSavings aggressive_ladder_record == 145600)%Q /\
    (forall c r, In c interesting_cycles -> cycle_record c 365 = ret r ->
                 (TotalSavings r <= 66795)%Q) /\
    Forall (fun r => r = aggressive_ladder_record \/ (TotalSavings r <= 104000)%Q)
           custom_records.
Proof.
  apply (aggressive_ladder_ranks_first stable_sort_values interesting_cycles).
  - exact stable_sort_values_meets_contract.
  - unfold interesting_cycles. repeat constructor; lia.
Defined.

(** ** The order of the ranking *)




(** ** Invalid cycle counts *)




(** * Further properties of the code *)

(** ** The partitioner on every integer input *)

Lemma triangular_nonneg_all (L : Z) : 0 <= triangular L.
Proof. pose proof (triangular_double L). nia. Qed.

Lemma sum_map_triangular_nonneg (l : list Z) : 0 <= sum (map triangular l).
Proof.
  apply sum_nonneg, Forall_map, Forall_forall.
  intros L _. apply triangular_nonneg_all.
Qed.

Lemma grand_total_of_nonneg (l : list Z) : (0 <= grand_total_of l)%Q.
Proof.
  rewrite grand_total_of_series. change 0%Q with (inject_Z 0).
  rewrite <- Zle_Qle. apply sum_map_triangular_nonneg.
Qed.

(** ** The total in closed form, its bounds and its variation *)

Lemma sum_triangular_cycle_lengths (c yd : Z) :
  1 <= c ->
  2 * sum (map triangular (cycle_lengths (yd / c) (yd mod c) c)) =
  (yd / c + 1) * (yd + yd mod c).
Proof.
  intros Hc.
  pose proof (Z.mod_pos_bound yd c ltac:(lia)) as Hr.
  pose proof (Z.div_mod yd c ltac:(lia)) as Hdm.
  rewrite cycle_lengths_shape by lia.
  rewrite map_app, !map_repeat, sum_app, !sum_repeat, !Z2Nat.id by lia.
  pose proof (triangular_double (yd / c)) as Hq.
  pose proof (triangular_double (yd / c + 1)) as Hq1.
  set (q := yd / c) in *. set (r := yd mod c) in *.
  set (Tq := triangular q) in *. set (Tq1 := triangular (q + 1)) in *.
  rewrite Z.mul_add_distr_l, !Z.mul_assoc, Hq, Hq1. nia.
Qed.

Lemma sum_le_sum_map_triangular (l : list Z) :
  Forall (fun x => 0 <= x) l -> sum l <= sum (map triangular l).
Proof.
  induction 1 as [|x l Hx _ IH]; [reflexivity|].
  cbn [map]. rewrite !sum_cons. pose proof (triangular_ge x Hx). lia.
Qed.

(** ** The shape of the partition and the fields derived from it *)


Lemma index0_cycle_lengths (c yd : Z) :
  1 <= c ->
  index0 (cycle_lengths (yd / c) (yd mod c) c) =
    ret (if 0 <? yd mod c then yd / c + 1 else yd / c).
Proof.
  intros Hc.
  pose proof (Z.mod_pos_bound yd c ltac:(lia)) as Hr.
  rewrite cycle_lengths_shape by lia.
  destruct (Z.ltb_spec 0 (yd mod c)).
  - destruct (Z.to_nat (yd mod c)) eqn:E; [lia | reflexivity].
  - replace (Z.to_nat (yd mod c)) with 0%nat by lia.
    destruct (Z.to_nat (c - yd mod c)) eqn:E; [lia | reflexivity].
Qed.




Lemma nodup_repeat (a : Z) (n : nat) : nodup Z.eq_dec (repeat a (S n)) = [a].
Proof.
  induction n as [|n IH]; [reflexivity|].
  change (repeat a (S (S n))) with (a :: repeat a (S n)). cbn [nodup].
  destruct (in_dec Z.eq_dec a (repeat a (S n))) as [_|Hn]; [exact IH|].
  exfalso. apply Hn. now left.
Qed.

Lemma nodup_repeat_app (a b : Z) (n k : nat) :
  a <> b ->
  nodup Z.eq_dec (repeat a (S n) ++ repeat b (S k)) = [a; b].
Proof.
  intros Hab. induction n as [|n IH].
  - change (repeat a 1 ++ repeat b (S k)) with (a :: repeat b (S k)).
    cbn [nodup]. destruct (in_dec Z.eq_dec a (repeat b (S k))) as [Hin|_].
    + apply repeat_spec in Hin. contradiction.
    + now rewrite nodup_repeat.
  - change (repeat a (S (S n)) ++ repeat b (S k))
      with (a :: (repeat a (S n) ++ repeat b (S k))).
    cbn [nodup].
    destruct (in_dec Z.eq_dec a (repeat a (S n) ++ repeat b (S k))) as [_|Hn];
      [exact IH|].
    exfalso. apply Hn. now left.
Qed.

(** The partition holds two distinct lengths exactly when the division
    leaves a remainder. *)
Lemma len_set_cycle_lengths (c yd : Z) :
  1 <= c ->
  len_set (cycle_lengths (yd / c) (yd mod c) c) = if 0 <? yd mod c then 2 else 1.
Proof.
  intros Hc.
  pose proof (Z.mod_pos_bound yd c ltac:(lia)) as Hr.
  rewrite cycle_lengths_shape by lia. unfold len_set, len.
  destruct (Z.to_nat (c - yd mod c)) as [|k] eqn:Ek; [lia|].
  destruct (Z.ltb_spec 0 (yd mod c)).
  - destruct (Z.to_nat (yd mod c)) as [|n] eqn:En; [lia|].
    rewrite nodup_repeat_app by lia. reflexivity.
  - replace (Z.to_nat (yd mod c)) with 0%nat by lia.
    change (repeat (yd / c + 1) 0) with (@nil Z).
    rewrite app_nil_l, nodup_repeat. reflexivity.
Qed.

Lemma int_of_float_quotient (n : Z) (p : positive) :
  0 <= n -> int_of_float (inject_Z n / inject_Z (Zpos p)) = n / Zpos p.
Proof.
  intros Hn. unfold int_of_float, Qdiv, Qmult, Qinv, inject_Z. cbn.
  rewrite Z.mul_1_r. apply Z.quot_div_nonneg; lia.
Qed.

Lemma np_mean_cycle_lengths (c yd : Z) :
  1 <= c ->
  np_mean (cycle_lengths (yd / c) (yd mod c) c) = (inject_Z yd / inject_Z c)%Q.
Proof.
  intros Hc. unfold np_mean.
  rewrite sum_cycle_lengths, len_cycle_lengths by lia.
  now rewrite Z.max_l by lia.
Qed.

Lemma inject_Z_pos (c : Z) : 1 <= c -> (0 < inject_Z c)%Q.
Proof. intros Hc. change 0%Q with (inject_Z 0). rewrite <- Zlt_Qlt. lia. Qed.

(** ** Which inputs give a table, and what the table holds *)

Lemma first_nonpositive (tc : list Z) :
  Forall (fun c => 1 <= c) tc \/
  exists pre c post,
    tc = pre ++ c :: post /\ Forall (fun c => 1 <= c) pre /\ c <= 0.
Proof.
  induction tc as [|x tc IH]; [left; constructor|].
  destruct (Z.le_gt_cases x 0) as [Hx|Hx].
  - right. exists [], x, tc. repeat split; [constructor | exact Hx].
  - destruct IH as [IH|(pre & c & post & -> & Hpre & Hc)].
    + left. constructor; [lia | exact IH].
    + right. exists (x :: pre), c, post.
      repeat split; [constructor; [lia | exact Hpre] | exact Hc].
Qed.







(** ** Labels *)













(** ** The console report *)

(** At 365 days the table starts with the Aggressive Ladder row. *)
Lemma table_head_365 (s : sorter) (tc : list Z) :
  sort_values_contract s ->
  Forall (fun c => 1 <= c) tc ->
  exists rest,
    generate_comparison_data s tc 365 = ret (aggressive_ladder_record :: rest).
Proof.
  intros Hs Htc.
  set (P := fun r => r = aggressive_ladder_record \/ (TotalSavings r <= 104000)%Q).
  assert (Hcustom : Forall P custom_records).
  { each_custom_record
      ltac:(first [ left; reflexivity | right; vm_compute; discriminate ]). }
  assert (Hcycle : forall c r, 1 <= c -> cycle_record c 365 = ret r -> P r).
  { intros c r Hc Hr. right.
    eapply Qle_trans; [eapply cycle_total_at_most_yearly; eassumption|].
    vm_compute; discriminate. }
  destruct (generate_comparison_data_ok s tc 365 Htc) as (rows & _ & _ & Hgen).
  destruct (table_rows_ind P s tc 365 Hs Htc Hcycle Hcustom)
    as (table & Hgen' & Hall).
  assert (Htable : table = s (rows ++ custom_records)).
  { pose proof Hgen' as E. rewrite Hgen in E. now injection E. }
  assert (Hin : In aggressive_ladder_record table).
  { rewrite Htable. apply custom_record_in_table; trivial.
    unfold custom_records; simpl; tauto. }
  assert (Hsorted : StronglySorted ranks_before table)
    by (rewrite Htable; apply Hs).
  destruct table as [|h rest]; [contradiction|].
  exists rest. rewrite Hgen'. do 2 f_equal.
  destruct Hin as [Hin|Hin]; [exact Hin|].
  destruct (Forall_inv Hall) as [Hh|Hh]; [exact Hh|].
  apply StronglySorted_inv in Hsorted. destruct Hsorted as [_ Hrest].
  rewrite Forall_forall in Hrest. specialize (Hrest _ Hin).
  unfold ranks_before in Hrest. exfalso.
  assert (Habs : (TotalSavings aggressive_ladder_record <= 104000)%Q)
    by (eapply Qle_trans; eassumption).
  vm_compute in Habs. now apply Habs.
Qed.

(** X13.  For a 365-day year the analysis printed by the script is the same
    for every list of cycle counts [>= 1]: the winner is "Aggressive Ladder"
    and the amount is shown as 145,600.00. *)
Theorem analysis_of_a_365_day_year (sort_values : sorter) (target_cycles : list Z) :
  sort_values_contract sort_values ->
  Forall (fun c => 1 <= c) target_cycles ->
  exists table,
    generate_comparison_data sort_values target_cycles 365 = ret table /\
    analysis_lines table =
      ret [ "--- Optimization Analysis ---";
            "Winner: Aggressive Ladder";
            "Max Savings Possible (1 Person): ฿145,600.00" ]%string.
Proof.
  intros Hs Htc.
  destruct (table_head_365 sort_values target_cycles Hs Htc) as (rest & Hgen).
  eexists. split; [exact Hgen|]. vm_compute. reflexivity.
Qed.

Lemma analysis_of_a_365_day_year_witness :
  exists table,
    generate_comparison_data stable_sort_values [2; 12] 365 = ret table /\
    analysis_lines table =
      ret [ "--- Optimization Analysis ---";
            "Winner: Aggressive Ladder";
            "Max Savings Possible (1 Person): ฿145,600.00" ]%string.
Proof.
  apply (analysis_of_a_365_day_year stable_sort_values [2; 12]).
  - exact stable_sort_values_meets_contract.
  - repeat constructor; lia.
Defined.

Lemma pylen_app (a b : string) : pylen (a ++ b) = (pylen a + pylen b)%nat.
Proof.
  induction a as [|x a IH]; [reflexivity|]. simpl.
  destruct (is_continuation_byte x); simpl; now rewrite IH.
Qed.

Lemma pylen_spaces (n : nat) : pylen (str_mul " " n) = n.
Proof. induction n as [|n IH]; [reflexivity|]. simpl. now rewrite IH. Qed.

Lemma pylen_ljust (s : string) (width : nat) :
  pylen (ljust s width) = Nat.max (pylen s) width.
Proof. unfold ljust. rewrite pylen_app, pylen_spaces. lia. Qed.

Lemma pylen_rjust (s : string) (width : nat) :
  pylen (rjust s width) = Nat.max (pylen s) width.
Proof. unfold rjust. rewrite pylen_app, pylen_spaces. lia. Qed.

(** X14.  [explain_strategies] prints one line per row, in the order of the
    frame, after three heading lines.  A row line never cuts a field: its
    width is the sum of the three column widths, each widened to its content
    when that is longer than 25, 35 or 15 characters, plus the two
    separators.  So a row is at least 81 characters wide, one more than the
    rules of 80, and the heading, whose last title has 16 characters, is 82
    wide. *)
Theorem report_layout (df : DataFrame) :
  (forall i row, nth_error df i = Some row ->
                 nth_error (explain_strategies df) (3 + i) = Some (row_line row)) /\
  List.length (explain_strategies df) = (List.length df + 4)%nat /\
  (forall row,
     pylen (row_line row) =
       (Nat.max (pylen (Label row)) 25 + 3 + Nat.max (pylen (Desc row)) 35 + 3 +
        Nat.max (pylen (format_f0 (TotalSavings row))) 15)%nat /\
     (81 <= pylen (row_line row))%nat) /\
  pylen header_line = 82%nat /\
  pylen (str_mul "=" 80) = 80%nat.
Proof.
  split; [|split; [|split; [|split; reflexivity]]].
  - intros i row Hi. unfold explain_strategies.
    change (3 + i)%nat with (S (S (S i))). cbn [app nth_error].
    rewrite nth_error_app1 by (rewrite length_map; apply nth_error_Some; congruence).
    now rewrite nth_error_map, Hi.
  - unfold explain_strategies. cbn [app List.length].
    rewrite length_app, length_map. simpl. lia.
  - intros row.
    assert (E : pylen (row_line row) =
                (Nat.max (pylen (Label row)) 25 + 3 + Nat.max (pylen (Desc row)) 35 + 3 +
                 Nat.max (pylen (format_f0 (TotalSavings row))) 15)%nat).
    { unfold row_line. rewrite !pylen_app, !pylen_ljust, pylen_rjust.
      change (pylen " | ") with 3%nat. lia. }
    split; [exact E | lia].
Qed.

Lemma report_layout_witness :
  nth_error (explain_strategies custom_records) (3 + 6) =
    Some (row_line aggressive_ladder_record).
Proof.
  apply (proj1 (report_layout custom_records) 6%nat aggressive_ladder_record).
  reflexivity.
Defined.

Lemma round_half_even_integer (x : Q) (n : Z) :
  (x == inject_Z n)%Q -> round_half_even x = n.
Proof.
  intros E. unfold round_half_even.
  assert (Hf : Qfloor x = n) by (rewrite E; apply Qfloor_Z).
  rewrite Hf.
  assert (Hc : (x - inject_Z n ?= 1 # 2)%Q = Lt).
  { rewrite E. apply Qlt_alt.
    setoid_replace (inject_Z n - inject_Z n)%Q with 0%Q by ring. reflexivity. }
  now rewrite Hc.
Qed.






(** * The float computations in IEEE doubles *)

(** ** Powers of two and binades *)

Lemma pow2_pos (k : Z) : (0 < Binary64.pow2 k)%Q.
Proof. apply Qpower_0_lt. reflexivity. Qed.

Lemma pow2_add (a b : Z) :
  (Binary64.pow2 (a + b) == Binary64.pow2 a * Binary64.pow2 b)%Q.
Proof. apply Qpower_plus. discriminate. Qed.

Lemma pow2_nonneg (k : Z) : 0 <= k -> (Binary64.pow2 k == inject_Z (2 ^ k))%Q.
Proof. intros Hk. unfold Binary64.pow2. now rewrite Zpower_Qpower. Qed.

Lemma pow2_lt_inv (a b : Z) : (Binary64.pow2 a < Binary64.pow2 b)%Q -> a < b.
Proof. intros H. apply (Qpower_lt_compat_l_inv 2); [exact H | reflexivity]. Qed.

Lemma pow2_le (a b : Z) : a <= b -> (Binary64.pow2 a <= Binary64.pow2 b)%Q.
Proof. intros H. apply Qpower_le_compat_l; [exact H | discriminate]. Qed.

Lemma pow2_split (a b : Z) :
  (Binary64.pow2 (a - b) * Binary64.pow2 b == Binary64.pow2 a)%Q.
Proof. rewrite <- pow2_add. now replace (a - b + b) with a by lia. Qed.

(** [ilog2] does find the binade of a positive rational. *)
Lemma ilog2_bounds (x : Q) :
  (0 < x)%Q ->
  (Binary64.pow2 (Binary64.ilog2 x) <= x)%Q /\
  (x < Binary64.pow2 (Binary64.ilog2 x + 1))%Q.
Proof.
  destruct x as [n d]. intros Hx.
  assert (Hn : 0 < n) by (unfold Qlt in Hx; simpl in Hx; lia).
  pose proof (Z.log2_spec n Hn) as Hln.
  pose proof (Z.log2_spec (Zpos d) ltac:(lia)) as Hld.
  pose proof (Z.log2_nonneg n) as Hln0.
  pose proof (Z.log2_nonneg (Zpos d)) as Hld0.
  set (ln := Z.log2 n) in *. set (ld := Z.log2 (Zpos d)) in *.
  assert (Hd : (0 < inject_Z (Zpos d))%Q) by reflexivity.
  assert (Hnlo : (Binary64.pow2 ln <= inject_Z n)%Q).
  { rewrite pow2_nonneg by lia. rewrite <- Zle_Qle. lia. }
  assert (Hnhi : (inject_Z n < Binary64.pow2 (ln + 1))%Q).
  { rewrite pow2_nonneg by lia. rewrite <- Zlt_Qlt. unfold Z.succ in Hln. lia. }
  assert (Hdlo : (Binary64.pow2 ld <= inject_Z (Zpos d))%Q).
  { rewrite pow2_nonneg by lia. rewrite <- Zle_Qle. lia. }
  assert (Hdhi : (inject_Z (Zpos d) <= Binary64.pow2 (ld + 1))%Q).
  { rewrite pow2_nonneg by lia. rewrite <- Zle_Qle. unfold Z.succ in Hld. lia. }
  assert (Hlow : (Binary64.pow2 (ln - ld - 1) <= n # d)%Q).
  { rewrite (Qmake_Qdiv n d). apply Qle_shift_div_l; [exact Hd|].
    eapply Qle_trans; [|exact Hnlo].
    rewrite <- (pow2_split ln (ld + 1)).
    replace (ln - (ld + 1)) with (ln - ld - 1) by lia.
    apply Qmult_le_l; [apply pow2_pos | exact Hdhi]. }
  assert (Hhigh : (n # d < Binary64.pow2 (ln - ld + 1))%Q).
  { rewrite (Qmake_Qdiv n d). apply Qlt_shift_div_r; [exact Hd|].
    eapply Qlt_le_trans; [exact Hnhi|].
    rewrite <- (pow2_split (ln + 1) ld).
    replace (ln + 1 - ld) with (ln - ld + 1) by lia.
    apply Qmult_le_l; [apply pow2_pos | exact Hdlo]. }
  unfold Binary64.ilog2. cbn [Qnum Qden]. fold ln ld.
  destruct (Qle_bool (Binary64.pow2 (ln - ld)) (n # d)) eqn:T.
  - split; [now apply Qle_bool_iff | exact Hhigh].
  - split; [exact Hlow|].
    replace (ln - ld - 1 + 1) with (ln - ld) by lia.
    apply Qnot_le_lt. intros Hle. apply Qle_bool_iff in Hle. congruence.
Qed.

Lemma ilog2_unique (x : Q) (e : Z) :
  (0 < x)%Q ->
  (Binary64.pow2 e <= x)%Q -> (x < Binary64.pow2 (e + 1))%Q ->
  Binary64.ilog2 x = e.
Proof.
  intros Hx Hlo Hhi. destruct (ilog2_bounds x Hx) as [Hlo' Hhi'].
  assert (H1 : Binary64.ilog2 x < e + 1)
    by (apply pow2_lt_inv; eapply Qle_lt_trans; eassumption).
  assert (H2 : e < Binary64.ilog2 x + 1)
    by (apply pow2_lt_inv; eapply Qle_lt_trans; eassumption).
  lia.
Qed.

Lemma ilog2_integer (x : Q) (n : Z) :
  0 < n -> (x == inject_Z n)%Q -> Binary64.ilog2 x = Z.log2 n.
Proof.
  intros Hn E. pose proof (Z.log2_spec n Hn) as Hl.
  pose proof (Z.log2_nonneg n) as Hl0. unfold Z.succ in Hl.
  apply ilog2_unique.
  - rewrite E. change 0%Q with (inject_Z 0). rewrite <- Zlt_Qlt. lia.
  - rewrite E, pow2_nonneg by lia. rewrite <- Zle_Qle. lia.
  - rewrite E, pow2_nonneg by lia. rewrite <- Zlt_Qlt. lia.
Qed.

(** ** Rounding to the nearest integer *)

Lemma round_half_even_cases (y : Q) :
  (round_half_even y = Qfloor y /\ (y - inject_Z (Qfloor y) <= 1 # 2)%Q) \/
  (round_half_even y = Qfloor y + 1 /\ (1 # 2 <= y - inject_Z (Qfloor y))%Q).
Proof.
  unfold round_half_even.
  destruct (Qcompare_spec (y - inject_Z (Qfloor y)) (1 # 2)) as [E|L|G].
  - destruct (Z.even (Qfloor y)); [left | right]; split; try reflexivity;
      rewrite E; apply Qle_refl.
  - left. split; [reflexivity | now apply Qlt_le_weak].
  - right. split; [reflexivity | now apply Qlt_le_weak].
Qed.

Lemma round_half_even_ge (N : Z) (y : Q) :
  (inject_Z N <= y)%Q -> N <= round_half_even y.
Proof.
  intros H. apply Qfloor_resp_le in H. rewrite Qfloor_Z in H.
  destruct (round_half_even_cases y) as [[-> _]|[-> _]]; lia.
Qed.

Lemma round_half_even_le (N : Z) (y : Q) :
  (y <= inject_Z N)%Q -> round_half_even y <= N.
Proof.
  intros H. pose proof (Qfloor_resp_le _ _ H) as Hf. rewrite Qfloor_Z in Hf.
  destruct (round_half_even_cases y) as [[-> _]|[-> Hhalf]]; [exact Hf|].
  assert (Hlt : (inject_Z (Qfloor y) < inject_Z N)%Q) by lra.
  rewrite <- Zlt_Qlt in Hlt. lia.
Qed.

Lemma round_half_even_below (N : Z) (y : Q) :
  (y < inject_Z N - (1 # 2))%Q -> round_half_even y <= N - 1.
Proof.
  intros H. pose proof (Qfloor_le y) as Hf.
  assert (Hlt : (inject_Z (Qfloor y) < inject_Z N)%Q) by lra.
  rewrite <- Zlt_Qlt in Hlt.
  destruct (round_half_even_cases y) as [[-> _]|[-> Hhalf]]; [lia|].
  assert (Hlt' : (inject_Z (Qfloor y) < inject_Z (N - 1))%Q).
  { unfold Z.sub. rewrite inject_Z_plus, inject_Z_opp.
    change (inject_Z 1) with 1%Q. lra. }
  rewrite <- Zlt_Qlt in Hlt'. lia.
Qed.

Lemma round_half_even_above (N : Z) (y : Q) :
  (inject_Z N + (1 # 2) < y)%Q -> N + 1 <= round_half_even y.
Proof.
  intros H. pose proof (Qlt_floor y) as Hf.
  rewrite inject_Z_plus in Hf. change (inject_Z 1) with 1%Q in Hf.
  assert (Hle : (inject_Z N <= inject_Z (Qfloor y))%Q).
  { assert (Hlt : (inject_Z N < inject_Z (Qfloor y + 1))%Q)
      by (rewrite inject_Z_plus; change (inject_Z 1) with 1%Q; lra).
    rewrite <- Zlt_Qlt in Hlt. rewrite <- Zle_Qle. lia. }
  rewrite <- Zle_Qle in Hle.
  destruct (round_half_even_cases y) as [[-> Hhalf]|[-> _]]; [|lia].
  assert (Hlt : (inject_Z N < inject_Z (Qfloor y))%Q) by lra.
  rewrite <- Zlt_Qlt in Hlt. lia.
Qed.

(** ** Values that rounding leaves alone *)

Lemma pow2_nonzero (k : Z) : ~ (Binary64.pow2 k == 0)%Q.
Proof. intros H. pose proof (pow2_pos k) as Hp. rewrite H in Hp. discriminate Hp. Qed.

(** A positive value that is an integer multiple of the last-place unit of
    its binade is its own rounding. *)
Lemma round_positive_representable (x : Q) (m j : Z) :
  (x == inject_Z m * Binary64.pow2 j)%Q ->
  Z.max (Binary64.ilog2 x - 52) (-1074) <= j ->
  (Binary64.round_positive x == x)%Q.
Proof.
  intros E Hj. unfold Binary64.round_positive.
  set (k := Z.max (Binary64.ilog2 x - 52) (-1074)) in *.
  pose proof (pow2_nonzero k) as Hk0.
  assert (Hm : (inject_Z (m * 2 ^ (j - k)) == inject_Z m * Binary64.pow2 (j - k))%Q).
  { rewrite inject_Z_mult, <- pow2_nonneg by lia. reflexivity. }
  assert (Hy : (x / Binary64.pow2 k == inject_Z (m * 2 ^ (j - k)))%Q).
  { rewrite Hm, E, <- (pow2_split j k). field. exact Hk0. }
  rewrite (round_half_even_integer _ _ Hy), Hm, E, <- (pow2_split j k). ring.
Qed.

Lemma round_positive_integer (x : Q) (n : Z) :
  0 < n <= exact_integers -> (x == inject_Z n)%Q ->
  (Binary64.round_positive x == x)%Q.
Proof.
  intros [Hn Hmax] E. unfold exact_integers in Hmax.
  pose proof (ilog2_integer x n Hn E) as He.
  pose proof (Z.log2_spec n Hn) as Hl.
  assert (Hl53 : Z.log2 n <= 53).
  { rewrite <- (Z.log2_pow2 53) by lia. now apply Z.log2_le_mono. }
  destruct (Z.le_gt_cases (Z.log2 n) 52) as [Hsmall|Hbig].
  - apply (round_positive_representable x n 0); [|lia].
    rewrite E. change (Binary64.pow2 0) with 1%Q. ring.
  - assert (Hlog : Z.log2 n = 53) by lia. rewrite Hlog in Hl.
    assert (Hn53 : n = 2 ^ 53) by lia.
    apply (round_positive_representable x (2 ^ 52) 1); [|lia].
    rewrite E, Hn53. reflexivity.
Qed.

(** Every integer up to 2^53 in magnitude is a double. *)
Lemma round_integer (x : Q) (n : Z) :
  (x == inject_Z n)%Q -> Z.abs n <= exact_integers ->
  (Binary64.round x == inject_Z n)%Q.
Proof.
  intros E Hn. unfold Binary64.round.
  destruct (Qcompare_spec x 0) as [E0|Hneg|Hpos].
  - now rewrite <- E, E0.
  - assert (Hn0 : n < 0).
    { rewrite E in Hneg. change 0%Q with (inject_Z 0) in Hneg.
      now rewrite <- Zlt_Qlt in Hneg. }
    assert (E' : (- x == inject_Z (- n))%Q) by (rewrite inject_Z_opp, E; reflexivity).
    rewrite (round_positive_integer (- x) (- n)); [|lia|exact E'].
    rewrite E. ring.
  - assert (Hn0 : 0 < n).
    { rewrite E in Hpos. change 0%Q with (inject_Z 0) in Hpos.
      now rewrite <- Zlt_Qlt in Hpos. }
    rewrite (round_positive_integer x n); [exact E|lia|exact E].
Qed.

Lemma round_nonneg (x : Q) : (0 <= x)%Q -> (0 <= Binary64.round x)%Q.
Proof.
  intros Hx. unfold Binary64.round.
  destruct (Qcompare_spec x 0) as [_|Hneg|Hpos]; [apply Qle_refl|lra|].
  unfold Binary64.round_positive.
  set (k := Z.max (Binary64.ilog2 x - 52) (-1074)).
  pose proof (pow2_pos k) as Hk.
  apply Qmult_le_0_compat; [|lra].
  change 0%Q with (inject_Z 0). rewrite <- Zle_Qle.
  apply round_half_even_ge. change (inject_Z 0) with 0%Q.
  apply Qle_shift_div_l; [exact Hk|]. lra.
Qed.

Lemma integer_not_too_large (x : Q) (n : Z) :
  (x == inject_Z n)%Q -> Z.abs n <= exact_integers ->
  Binary64.too_large x = false.
Proof.
  intros E Hn. unfold Binary64.too_large.
  destruct (Qle_bool (Binary64.pow2 1024) (Qabs x)) eqn:T; [|reflexivity].
  exfalso. apply Qle_bool_iff in T.
  rewrite E, pow2_nonneg in T by lia.
  assert (Habs : (Qabs (inject_Z n) == inject_Z (Z.abs n))%Q).
  { unfold Qabs, inject_Z. reflexivity. }
  rewrite Habs, <- Zle_Qle in T.
  assert (Hpow : exact_integers < 2 ^ 1024)
    by (unfold exact_integers; apply Z.pow_lt_mono_r; lia).
  lia.
Qed.

(** ** The valuation where every integer is a double *)

Lemma b64_truediv_exact (a b n : Z) :
  b <> 0 -> (inject_Z a / inject_Z b == inject_Z n)%Q ->
  Z.abs n <= exact_integers ->
  exists r, Binary64.truediv a b = ret (Binary64.Finite r) /\ (r == inject_Z n)%Q.
Proof.
  intros Hb E Hn. unfold Binary64.truediv.
  destruct (Z.eqb_spec b 0); [contradiction|].
  pose proof (round_integer _ n E Hn) as Hr.
  rewrite (integer_not_too_large _ n Hr Hn). eexists. split; [reflexivity | exact Hr].
Qed.

Lemma b64_cycle_sum_exact (lgth : Z) :
  triangular lgth <= exact_integers ->
  exists c, Binary64.cycle_sum lgth = ret (Binary64.Finite c) /\
            (c == inject_Z (triangular lgth))%Q.
Proof.
  intros Hmax. pose proof (triangular_nonneg_all lgth).
  apply b64_truediv_exact; [lia | apply cycle_sum_triangular | lia].
Qed.

Lemma b64_add_exact (a b : Q) (n m : Z) :
  (a == inject_Z n)%Q -> (b == inject_Z m)%Q ->
  Z.abs (n + m) <= exact_integers ->
  exists r, Binary64.add (Binary64.Finite a) (Binary64.Finite b) = Binary64.Finite r /\
            (r == inject_Z (n + m))%Q.
Proof.
  intros Ea Eb Hmax. cbn [Binary64.add].
  assert (E : (a + b == inject_Z (n + m))%Q) by (rewrite inject_Z_plus, Ea, Eb; reflexivity).
  pose proof (round_integer _ _ E Hmax) as Hr.
  rewrite (integer_not_too_large _ _ Hr Hmax). eexists. split; [reflexivity | exact Hr].
Qed.

(** While the running total stays within 2^53 the loop adds without any
    rounding. *)
Lemma b64_loop_exact (lengths : list Z) (acc : Q) (n : Z) :
  (acc == inject_Z n)%Q -> 0 <= n ->
  n + sum (map triangular lengths) <= exact_integers ->
  exists t,
    Binary64.grand_total_loop lengths (Binary64.Finite acc) =
      ret (Binary64.Finite t) /\
    (t == inject_Z (n + sum (map triangular lengths)))%Q.
Proof.
  revert acc n. induction lengths as [|L lengths IH]; intros acc n Eacc Hn Hmax.
  - exists acc. split; [reflexivity|]. unfold sum. simpl. now rewrite Z.add_0_r.
  - cbn [map] in *. rewrite sum_cons in *.
    pose proof (triangular_nonneg_all L) as HL.
    pose proof (sum_map_triangular_nonneg lengths) as Hrest.
    destruct (b64_cycle_sum_exact L ltac:(lia)) as (c & Hc & Ec).
    destruct (b64_add_exact acc c n (triangular L) Eacc Ec ltac:(lia)) as (r & Hr & Er).
    cbn [Binary64.grand_total_loop]. rewrite Hc. cbn [bind ret]. rewrite Hr.
    destruct (IH r (n + triangular L) Er ltac:(lia) ltac:(lia)) as (t & Ht & Et).
    exists t. split; [exact Ht|]. rewrite Et. apply inject_Z_injective. lia.
Qed.

(** Within that range the doubles and the reals agree on the whole
    function. *)
Lemma b64_calculate_yearly_savings_exact (c yd : Z) :
  1 <= c -> 0 <= yd -> triangular yd <= exact_integers ->
  exists total,
    Binary64.calculate_yearly_savings c yd =
      ret (Binary64.Finite total, cycle_lengths (yd / c) (yd mod c) c) /\
    (total == grand_total_of (cycle_lengths (yd / c) (yd mod c) c))%Q /\
    calculate_yearly_savings c yd =
      ret (grand_total_of (cycle_lengths (yd / c) (yd mod c) c),
           cycle_lengths (yd / c) (yd mod c) c).
Proof.
  intros Hc Hy Hmax. unfold Binary64.calculate_yearly_savings, floordiv, pymod.
  destruct (Z.eqb_spec c 0); [lia|]. cbn [bind ret].
  set (lengths := cycle_lengths (yd / c) (yd mod c) c).
  assert (Hsum : sum (map triangular lengths) <= exact_integers).
  { etransitivity; [apply triangular_superadditive, cycle_lengths_nonneg; lia|].
    unfold lengths. now rewrite sum_cycle_lengths by lia. }
  destruct (b64_loop_exact lengths 0 0 ltac:(reflexivity) ltac:(lia) ltac:(lia))
    as (t & Ht & Et).
  rewrite Ht. cbn [bind ret]. exists t.
  split; [reflexivity|]. split; [|apply calculate_yearly_savings_ok; lia].
  rewrite Et, grand_total_of_series. reflexivity.
Qed.

(** C1, as the code has it.  For [cycle_count >= 1] and [year_days >= 0]
    with [year_days*(year_days+1)/2 <= 2^53], that is up to 134217727 days,
    the call returns and the grand total, a double, equals the sum over its
    cycle lengths of L*(L+1)/2, an integer; for a year of 365 days it is
    66795 with one cycle, 33489 with two and 365 with 365. *)
Theorem grand_total_is_series_sum :
  (forall cycle_count year_days : Z,
     1 <= cycle_count -> 0 <= year_days ->
     triangular year_days <= exact_integers ->
     exists total lengths,
       Binary64.calculate_yearly_savings cycle_count year_days =
         ret (Binary64.Finite total, lengths) /\
       (total == inject_Z (sum (map triangular lengths)))%Q /\
       Forall (fun L => 2 * triangular L = L * (L + 1)) lengths) /\
  (exists total,
     Binary64.calculate_yearly_savings 1 365 = ret (Binary64.Finite total, [365]) /\
     (total == 66795)%Q) /\
  (exists total,
     Binary64.calculate_yearly_savings 2 365 =
       ret (Binary64.Finite total, [183; 182]) /\
     (total == 33489)%Q) /\
  (exists total,
     Binary64.calculate_yearly_savings 365 365 =
       ret (Binary64.Finite total, repeat 1 365%nat) /\
     (total == 365)%Q).
Proof.
  split; [|split; [|split]].
  - intros c yd Hc Hy Hmax.
    destruct (b64_calculate_yearly_savings_exact c yd Hc Hy Hmax) as (t & Ht & Et & _).
    exists t. eexists. split; [exact Ht|]. split.
    + rewrite Et. apply grand_total_of_series.
    + apply Forall_forall. intros L _. apply triangular_double.
  - eexists. split; [vm_compute; reflexivity|]. vm_compute. reflexivity.
  - eexists. split; [vm_compute; reflexivity|]. vm_compute. reflexivity.
  - eexists. split; [vm_compute; reflexivity|]. vm_compute. reflexivity.
Qed.

Lemma grand_total_is_series_sum_witness :
  exists total lengths,
    Binary64.calculate_yearly_savings 4 365 = ret (Binary64.Finite total, lengths) /\
    (total == inject_Z (sum (map triangular lengths)))%Q /\
    Forall (fun L => 2 * triangular L = L * (L + 1)) lengths.
Proof.
  apply (proj1 grand_total_is_series_sum 4 365); [lia | lia | vm_compute; discriminate].
Defined.

(** C1, as stated, fails.  For one cycle of 134217729 days the sum
    134217729*134217730/2 = 9007199456067585 is odd and above 2^53, so the
    true division returns the double 9007199456067584; and for 10^200 days
    the quotient exceeds the doubles and the call raises instead of
    returning. *)
Lemma grand_total_rounded_above_2_53 :
  (exists total,
     Binary64.calculate_yearly_savings 1 134217729 =
       ret (Binary64.Finite total, [134217729]) /\
     (total == 9007199456067584)%Q /\
     sum (map triangular [134217729]) = 9007199456067585 /\
     ~ (total == inject_Z (sum (map triangular [134217729%Z])))%Q) /\
  Binary64.calculate_yearly_savings 1 (10 ^ 200) = raise OverflowError.
Proof.
  split.
  - eexists. split; [vm_compute; reflexivity|].
    split; [vm_compute; reflexivity|]. split; [vm_compute; reflexivity|].
    intros H. vm_compute in H. discriminate H.
  - vm_compute. reflexivity.
Qed.

(** ** Every outcome of the valuation *)

Lemma b64_cycle_sum_outcome (lgth : Z) :
  Binary64.cycle_sum lgth = raise OverflowError \/
  exists c, Binary64.cycle_sum lgth = ret (Binary64.Finite c) /\ (0 <= c)%Q.
Proof.
  unfold Binary64.cycle_sum, Binary64.truediv. cbn [Z.eqb].
  destruct (Binary64.too_large _); [now left|].
  right. eexists. split; [reflexivity|].
  apply round_nonneg.
  change (0 <= cycle_sum lgth)%Q. rewrite cycle_sum_triangular.
  change 0%Q with (inject_Z 0). rewrite <- Zle_Qle. apply triangular_nonneg_all.
Qed.

Lemma b64_add_nonnegative (x : Binary64.double) (c : Q) :
  Binary64.nonnegative x -> (0 <= c)%Q ->
  Binary64.nonnegative (Binary64.add x (Binary64.Finite c)).
Proof.
  destruct x as [a|s|]; cbn [Binary64.nonnegative Binary64.add]; intros Hx Hc.
  - assert (Hr : (0 <= Binary64.round (a + c))%Q) by (apply round_nonneg; lra).
    destruct (Binary64.too_large _); cbn [Binary64.nonnegative]; [|exact Hr].
    unfold Binary64.is_negative.
    destruct (Qcompare_spec (Binary64.round (a + c)) 0); try reflexivity; lra.
  - exact Hx.
  - exact Hx.
Qed.

Lemma b64_loop_outcome (lengths : list Z) (acc : Binary64.double) :
  Binary64.nonnegative acc ->
  Binary64.grand_total_loop lengths acc = raise OverflowError \/
  exists total,
    Binary64.grand_total_loop lengths acc = ret total /\
    Binary64.nonnegative total.
Proof.
  revert acc. induction lengths as [|L lengths IH]; intros acc Hacc.
  - right. exists acc. split; [reflexivity | exact Hacc].
  - cbn [Binary64.grand_total_loop].
    destruct (b64_cycle_sum_outcome L) as [->|(c & -> & Hc)]; [now left|].
    cbn [bind ret]. apply IH. now apply b64_add_nonnegative.
Qed.

(** X1.  On doubles, [calculate_yearly_savings] raises [ZeroDivisionError]
    for a cycle count of 0 and nothing else but [OverflowError], when a
    cycle is too long for its sum to be a double.  When it returns, for a
    negative count with the empty partition and the total 0, for a positive
    one with [num_cycles] lengths summing to [year_days], the total is never
    below zero; it can be the positive infinity. *)
Theorem valuation_outcome (num_cycles year_days : Z) :
  (num_cycles = 0 /\
   Binary64.calculate_yearly_savings num_cycles year_days = raise ZeroDivisionError) \/
  (num_cycles <> 0 /\
   (Binary64.calculate_yearly_savings num_cycles year_days = raise OverflowError \/
    exists total lengths,
      Binary64.calculate_yearly_savings num_cycles year_days = ret (total, lengths) /\
      len lengths = Z.max num_cycles 0 /\
      sum lengths = (if 0 <? num_cycles then year_days else 0) /\
      Binary64.nonnegative total)).
Proof.
  destruct (Z.eq_dec num_cycles 0) as [->|Hne]; [left; split; reflexivity|].
  right. split; [exact Hne|].
  unfold Binary64.calculate_yearly_savings, floordiv, pymod.
  destruct (Z.eqb_spec num_cycles 0); [contradiction|]. cbn [bind ret].
  set (lengths := cycle_lengths (year_days / num_cycles)
                    (year_days mod num_cycles) num_cycles).
  destruct (b64_loop_outcome lengths (Binary64.Finite 0)) as [->|(t & -> & Ht)];
    [cbn; lra | now left |].
  right. exists t, lengths. cbn [bind ret].
  split; [reflexivity|]. split; [apply len_cycle_lengths|]. split; [|exact Ht].
  unfold lengths. destruct (Z.ltb_spec 0 num_cycles).
  - apply sum_cycle_lengths. lia.
  - rewrite cycle_lengths_empty by lia. reflexivity.
Qed.

(** ** The total in closed form, its bounds and its variation *)

(** X2.  For [num_cycles >= 1] and [0 <= year_days] with
    [year_days*(year_days+1)/2 <= 2^53], twice the grand total the code
    returns is [(year_days // num_cycles + 1) * (year_days + year_days % num_cycles)]. *)
Theorem grand_total_closed_form (num_cycles year_days : Z) :
  1 <= num_cycles -> 0 <= year_days ->
  triangular year_days <= exact_integers ->
  exists total lengths,
    Binary64.calculate_yearly_savings num_cycles year_days =
      ret (Binary64.Finite total, lengths) /\
    (2 * total ==
     inject_Z ((year_days / num_cycles + 1) * (year_days + year_days mod num_cycles)))%Q.
Proof.
  intros Hc Hy Hmax.
  destruct (b64_calculate_yearly_savings_exact _ _ Hc Hy Hmax) as (t & Ht & Et & _).
  exists t. eexists. split; [exact Ht|].
  rewrite Et, grand_total_of_series, <- sum_triangular_cycle_lengths by lia.
  rewrite inject_Z_mult. reflexivity.
Qed.

Lemma grand_total_closed_form_witness :
  exists total lengths,
    Binary64.calculate_yearly_savings 4 365 = ret (Binary64.Finite total, lengths) /\
    (2 * total == inject_Z ((365 / 4 + 1) * (365 + 365 mod 4)))%Q.
Proof.
  apply (grand_total_closed_form 4 365); [lia | lia | vm_compute; discriminate].
Defined.

(** X3.  For [num_cycles >= 1] and [0 <= year_days] with
    [year_days*(year_days+1)/2 <= 2^53], the grand total lies between
    [year_days] (one unit per day, reached when every cycle has at most one
    day) and the series sum of the whole year (a single cycle). *)
Theorem grand_total_bounds (num_cycles year_days : Z) :
  1 <= num_cycles -> 0 <= year_days ->
  triangular year_days <= exact_integers ->
  exists total lengths,
    Binary64.calculate_yearly_savings num_cycles year_days =
      ret (Binary64.Finite total, lengths) /\
    (inject_Z year_days <= total)%Q /\
    (total <= inject_Z (triangular year_days))%Q.
Proof.
  intros Hc Hy Hmax.
  destruct (b64_calculate_yearly_savings_exact _ _ Hc Hy Hmax) as (t & Ht & Et & _).
  exists t. eexists. split; [exact Ht|].
  pose proof (cycle_lengths_nonneg num_cycles year_days Hc Hy) as Hnn.
  pose proof (sum_cycle_lengths num_cycles year_days Hc) as Hsum.
  rewrite Et, grand_total_of_series, <- !Zle_Qle. split.
  - rewrite <- Hsum at 1. now apply sum_le_sum_map_triangular.
  - etransitivity; [apply triangular_superadditive, Hnn|].
    rewrite Hsum. reflexivity.
Qed.

Lemma grand_total_bounds_witness :
  exists total lengths,
    Binary64.calculate_yearly_savings 12 365 = ret (Binary64.Finite total, lengths) /\
    (inject_Z 365 <= total)%Q /\
    (total <= inject_Z (triangular 365))%Q.
Proof.
  apply (grand_total_bounds 12 365); [lia | lia | vm_compute; discriminate].
Defined.

(** X4.  For a fixed [year_days >= 0] with
    [year_days*(year_days+1)/2 <= 2^53], the grand total does not increase
    with the number of cycles: resetting more often never saves more. *)
Theorem grand_total_antitone (year_days c1 c2 : Z) :
  0 <= year_days -> triangular year_days <= exact_integers ->
  1 <= c1 <= c2 ->
  exists t1 l1 t2 l2,
    Binary64.calculate_yearly_savings c1 year_days = ret (Binary64.Finite t1, l1) /\
    Binary64.calculate_yearly_savings c2 year_days = ret (Binary64.Finite t2, l2) /\
    (t2 <= t1)%Q.
Proof.
  intros Hy Hmax Hc.
  destruct (b64_calculate_yearly_savings_exact c1 year_days ltac:(lia) Hy Hmax)
    as (t1 & Ht1 & Et1 & _).
  destruct (b64_calculate_yearly_savings_exact c2 year_days ltac:(lia) Hy Hmax)
    as (t2 & Ht2 & Et2 & _).
  exists t1. eexists. exists t2. eexists.
  split; [exact Ht1|]. split; [exact Ht2|].
  rewrite Et1, Et2, !grand_total_of_series, <- Zle_Qle.
  pose proof (sum_triangular_cycle_lengths c1 year_days ltac:(lia)) as H1.
  pose proof (sum_triangular_cycle_lengths c2 year_days ltac:(lia)) as H2.
  pose proof (Z.mod_pos_bound year_days c1 ltac:(lia)) as Hr1.
  pose proof (Z.mod_pos_bound year_days c2 ltac:(lia)) as Hr2.
  pose proof (Z.div_mod year_days c1 ltac:(lia)) as Hd1.
  pose proof (Z.div_mod year_days c2 ltac:(lia)) as Hd2.
  pose proof (Z.div_pos year_days c2 Hy ltac:(lia)) as Hq2.
  pose proof (Z.div_le_compat_l year_days c1 c2 Hy ltac:(lia)) as Hq.
  set (q1 := year_days / c1) in *. set (r1 := year_days mod c1) in *.
  set (q2 := year_days / c2) in *. set (r2 := year_days mod c2) in *.
  assert (Hstep : (q2 + 1) * (year_days + r2) <= (q1 + 1) * (year_days + r1)).
  { assert (HA : 0 <= (q1 - q2) * (c1 * (q1 - q2 - 1) + 2 * r1)).
    { destruct (Z.eq_dec q1 q2) as [->|Hne]; [lia|].
      apply Z.mul_nonneg_nonneg; nia. }
    assert (HB : c1 * (q2 * (q2 + 1)) <= c2 * (q2 * (q2 + 1))).
    { apply Z.mul_le_mono_nonneg_r; nia. }
    nia. }
  lia.
Qed.

Lemma grand_total_antitone_witness :
  exists t1 l1 t2 l2,
    Binary64.calculate_yearly_savings 4 365 = ret (Binary64.Finite t1, l1) /\
    Binary64.calculate_yearly_savings 12 365 = ret (Binary64.Finite t2, l2) /\
    (t2 <= t1)%Q.
Proof.
  apply (grand_total_antitone 365 4 12); [lia | vm_compute; discriminate | lia].
Defined.

(** ** Rounding between integers *)

Lemma ilog2_below_53 (x : Q) :
  (0 < x)%Q -> (x < Binary64.pow2 53)%Q -> Binary64.ilog2 x <= 52.
Proof.
  intros Hx Hlt. destruct (ilog2_bounds x Hx) as [Hlo _].
  assert (H : Binary64.ilog2 x < 53)
    by (apply pow2_lt_inv; eapply Qle_lt_trans; eassumption).
  lia.
Qed.

Lemma ilog2_at_least (x : Q) (a : Z) :
  (0 < x)%Q -> (Binary64.pow2 a <= x)%Q -> a <= Binary64.ilog2 x.
Proof.
  intros Hx Hle. destruct (ilog2_bounds x Hx) as [_ Hhi].
  assert (H : a < Binary64.ilog2 x + 1)
    by (apply pow2_lt_inv; eapply Qle_lt_trans; eassumption).
  lia.
Qed.

(** At a step [2^k] with [k <= 0] every integer is a whole number of
    steps. *)
Lemma integer_in_steps (N k : Z) :
  k <= 0 ->
  (inject_Z (N * 2 ^ (- k)) * Binary64.pow2 k == inject_Z N)%Q.
Proof.
  intros Hk. rewrite inject_Z_mult, <- pow2_nonneg by lia.
  rewrite <- Qmult_assoc, <- pow2_add.
  replace (- k + k) with 0 by lia. change (Binary64.pow2 0) with 1%Q. ring.
Qed.

Lemma round_of_positive (x : Q) :
  (0 < x)%Q -> Binary64.round x = Binary64.round_positive x.
Proof.
  intros Hx. unfold Binary64.round.
  destruct (Qcompare_spec x 0) as [E|L|G]; [|lra|reflexivity].
  rewrite E in Hx. discriminate Hx.
Qed.

(** Rounding a positive value below 2^53 never crosses an integer. *)
Lemma round_ge_integer (x : Q) (N : Z) :
  (0 < x)%Q -> (x < Binary64.pow2 53)%Q ->
  (inject_Z N <= x)%Q -> (inject_Z N <= Binary64.round x)%Q.
Proof.
  intros Hx H53 HN. rewrite (round_of_positive x Hx).
  pose proof (ilog2_below_53 x Hx H53) as He.
  unfold Binary64.round_positive.
  set (k := Z.max (Binary64.ilog2 x - 52) (-1074)).
  assert (Hk : k <= 0) by lia.
  pose proof (pow2_pos k) as Hp. pose proof (integer_in_steps N k Hk) as HNk.
  assert (Hy : (inject_Z (N * 2 ^ (- k)) <= x / Binary64.pow2 k)%Q).
  { apply Qle_shift_div_l; [exact Hp|]. rewrite HNk. exact HN. }
  apply round_half_even_ge in Hy. rewrite Zle_Qle in Hy.
  rewrite <- HNk. apply Qmult_le_r; assumption.
Qed.

Lemma round_le_integer (x : Q) (N : Z) :
  (0 < x)%Q -> (x < Binary64.pow2 53)%Q ->
  (x <= inject_Z N)%Q -> (Binary64.round x <= inject_Z N)%Q.
Proof.
  intros Hx H53 HN. rewrite (round_of_positive x Hx).
  pose proof (ilog2_below_53 x Hx H53) as He.
  unfold Binary64.round_positive.
  set (k := Z.max (Binary64.ilog2 x - 52) (-1074)).
  assert (Hk : k <= 0) by lia.
  pose proof (pow2_pos k) as Hp. pose proof (integer_in_steps N k Hk) as HNk.
  assert (Hy : (x / Binary64.pow2 k <= inject_Z (N * 2 ^ (- k)))%Q).
  { apply Qle_shift_div_r; [exact Hp|]. rewrite HNk. exact HN. }
  apply round_half_even_le in Hy. rewrite Zle_Qle in Hy.
  rewrite <- HNk. apply Qmult_le_r; assumption.
Qed.

(** In the normal range, the step of a value [x] is [2^(e-52)] with
    [2^e <= x]: half a step is at most [x / 2^53]. *)
Lemma half_step_bound (x : Q) :
  (Binary64.pow2 (-1022) <= x)%Q -> (x < Binary64.pow2 53)%Q ->
  let k := Z.max (Binary64.ilog2 x - 52) (-1074) in
  k <= 0 /\
  (Binary64.pow2 k * Binary64.pow2 53 <= 2 * x)%Q.
Proof.
  intros Hlo H53.
  assert (Hx : (0 < x)%Q) by (eapply Qlt_le_trans; [apply pow2_pos | exact Hlo]).
  pose proof (ilog2_below_53 x Hx H53) as He.
  pose proof (ilog2_at_least x (-1022) Hx Hlo) as He'.
  destruct (ilog2_bounds x Hx) as [Hbin _].
  intros k. assert (Ek : k = Binary64.ilog2 x - 52) by lia.
  split; [lia|]. rewrite Ek, <- pow2_add.
  replace (Binary64.ilog2 x - 52 + 53) with (Binary64.ilog2 x + 1) by lia.
  rewrite pow2_add. change (Binary64.pow2 1) with 2%Q. lra.
Qed.

Lemma round_gt_integer (x : Q) (N : Z) :
  (Binary64.pow2 (-1022) <= x)%Q -> (x < Binary64.pow2 53)%Q ->
  (x < (x - inject_Z N) * Binary64.pow2 53)%Q ->
  (inject_Z N < Binary64.round x)%Q.
Proof.
  intros Hlo H53 Hgap.
  assert (Hx : (0 < x)%Q) by (eapply Qlt_le_trans; [apply pow2_pos | exact Hlo]).
  rewrite (round_of_positive x Hx).
  destruct (half_step_bound x Hlo H53) as [Hk Hstep].
  unfold Binary64.round_positive.
  set (k := Z.max (Binary64.ilog2 x - 52) (-1074)) in *.
  pose proof (pow2_pos k) as Hp. pose proof (pow2_pos 53) as Hp53.
  pose proof (integer_in_steps N k Hk) as HNk.
  set (p := Binary64.pow2 k) in *. set (P := Binary64.pow2 53) in *.
  set (Ns := inject_Z (N * 2 ^ (- k))) in *.
  assert (Hhalf : (p < 2 * (x - inject_Z N))%Q).
  { apply (Qmult_lt_r _ _ P Hp53). nra. }
  assert (Hy : (Ns + (1 # 2) < x / p)%Q).
  { apply Qlt_shift_div_l; [exact Hp|]. nra. }
  apply round_half_even_above in Hy. rewrite Zle_Qle in Hy.
  rewrite inject_Z_plus in Hy. fold Ns in Hy. change (inject_Z 1) with 1%Q in Hy.
  nra.
Qed.

Lemma round_lt_integer (x : Q) (N : Z) :
  (Binary64.pow2 (-1022) <= x)%Q -> (x < Binary64.pow2 53)%Q ->
  (x < (inject_Z N - x) * Binary64.pow2 53)%Q ->
  (Binary64.round x < inject_Z N)%Q.
Proof.
  intros Hlo H53 Hgap.
  assert (Hx : (0 < x)%Q) by (eapply Qlt_le_trans; [apply pow2_pos | exact Hlo]).
  rewrite (round_of_positive x Hx).
  destruct (half_step_bound x Hlo H53) as [Hk Hstep].
  unfold Binary64.round_positive.
  set (k := Z.max (Binary64.ilog2 x - 52) (-1074)) in *.
  pose proof (pow2_pos k) as Hp. pose proof (pow2_pos 53) as Hp53.
  pose proof (integer_in_steps N k Hk) as HNk.
  set (p := Binary64.pow2 k) in *. set (P := Binary64.pow2 53) in *.
  set (Ns := inject_Z (N * 2 ^ (- k))) in *.
  assert (Hhalf : (p < 2 * (inject_Z N - x))%Q).
  { apply (Qmult_lt_r _ _ P Hp53). nra. }
  assert (Hy : (x / p < Ns - (1 # 2))%Q).
  { apply Qlt_shift_div_r; [exact Hp|]. nra. }
  apply round_half_even_below in Hy. rewrite Zle_Qle in Hy.
  unfold Z.sub in Hy. rewrite inject_Z_plus, inject_Z_opp in Hy.
  fold Ns in Hy. change (inject_Z 1) with 1%Q in Hy.
  nra.
Qed.

(** ** The double [year_days / c] *)

Lemma bounded_not_too_large (v : Q) (n : Z) :
  (0 <= v)%Q -> (v <= inject_Z n)%Q -> n < 2 ^ 1024 ->
  Binary64.too_large v = false.
Proof.
  intros Hv Hn Hlt. unfold Binary64.too_large.
  destruct (Qle_bool (Binary64.pow2 1024) (Qabs v)) eqn:T; [|reflexivity].
  exfalso. apply Qle_bool_iff in T.
  rewrite Qabs_pos, pow2_nonneg in T by (assumption || lia).
  assert (H : (inject_Z (2 ^ 1024) <= inject_Z n)%Q) by (eapply Qle_trans; eassumption).
  rewrite <- Zle_Qle in H. lia.
Qed.

(** For a year and a cycle count below 2^53 the rounded quotient stays on
    the side of [year_days // c] where the exact quotient is: equal to it
    when [c] divides [year_days], strictly between it and the next integer
    otherwise. *)
Lemma round_quotient_between (x : Q) (c yd : Z) :
  1 <= c <= exact_integers -> 0 <= yd < exact_integers ->
  (x * inject_Z c == inject_Z yd)%Q ->
  Binary64.too_large (Binary64.round x) = false /\
  if yd mod c =? 0
  then (Binary64.round x == inject_Z (yd / c))%Q
  else (inject_Z (yd / c) < Binary64.round x)%Q /\
       (Binary64.round x < inject_Z (yd / c + 1))%Q.
Proof.
  intros Hc Hy Hxc. unfold exact_integers in *.
  pose proof (Z.mod_pos_bound yd c ltac:(lia)) as Hr.
  pose proof (Z.div_mod yd c ltac:(lia)) as Hdm.
  pose proof (Z.div_pos yd c ltac:(lia) ltac:(lia)) as Hq.
  assert (Hqy : yd / c <= yd) by (apply Z.div_le_upper_bound; nia).
  assert (HC : (1 <= inject_Z c)%Q)
    by (change 1%Q with (inject_Z 1); rewrite <- Zle_Qle; lia).
  assert (HP : (Binary64.pow2 53 == inject_Z (2 ^ 53))%Q) by (apply pow2_nonneg; lia).
  assert (Hdmq : (inject_Z yd == inject_Z c * inject_Z (yd / c) + inject_Z (yd mod c))%Q)
    by (rewrite <- inject_Z_mult, <- inject_Z_plus, <- Hdm; reflexivity).
  destruct (Z.eqb_spec (yd mod c) 0) as [E0|Hne].
  - assert (Ex : (x == inject_Z (yd / c))%Q).
    { rewrite E0 in Hdmq. change (inject_Z 0) with 0%Q in Hdmq.
      apply Qle_antisym; nra. }
    pose proof (round_integer x (yd / c) Ex ltac:(unfold exact_integers; lia)) as Hr0.
    split; [|exact Hr0].
    apply (integer_not_too_large _ (yd / c) Hr0). unfold exact_integers. lia.
  - assert (HR1 : (1 <= inject_Z (yd mod c))%Q)
      by (change 1%Q with (inject_Z 1); rewrite <- Zle_Qle; lia).
    assert (HR2 : (inject_Z (yd mod c) + 1 <= inject_Z c)%Q).
    { change 1%Q with (inject_Z 1). rewrite <- inject_Z_plus, <- Zle_Qle. lia. }
    assert (HY : (inject_Z yd + 1 <= Binary64.pow2 53)%Q).
    { rewrite HP. change 1%Q with (inject_Z 1).
      rewrite <- inject_Z_plus, <- Zle_Qle. lia. }
    assert (HCP : (inject_Z c <= Binary64.pow2 53)%Q)
      by (rewrite HP, <- Zle_Qle; lia).
    assert (HQ0 : (0 <= inject_Z (yd / c))%Q)
      by (change 0%Q with (inject_Z 0); rewrite <- Zle_Qle; lia).
    assert (HQ1 : (inject_Z (yd / c + 1) == inject_Z (yd / c) + 1)%Q)
      by (rewrite inject_Z_plus; reflexivity).
    set (C := inject_Z c) in *. set (Y := inject_Z yd) in *.
    set (Qt := inject_Z (yd / c)) in *. set (R := inject_Z (yd mod c)) in *.
    set (P := Binary64.pow2 53) in *.
    assert (Hx0 : (0 < x)%Q) by nra.
    assert (Hlow : (Qt < x)%Q) by nra.
    assert (Hhigh : (x + x * 0 < Qt + 1)%Q) by nra.
    assert (H53 : (x < P)%Q) by nra.
    assert (Hnormal : (Binary64.pow2 (-1022) <= x)%Q).
    { eapply Qle_trans; [apply (pow2_le (-1022) (-53)); lia|].
      assert (Hinv : (Binary64.pow2 (-53) * P == 1)%Q).
      { unfold P. rewrite <- pow2_add. reflexivity. }
      pose proof (pow2_pos (-53)) as Hp. nra. }
    assert (Hgap_lo : (x < (x - Qt) * P)%Q).
    { apply (Qmult_lt_r _ _ C); [lra|]. nra. }
    assert (Hgap_hi : (x < (inject_Z (yd / c + 1) - x) * P)%Q).
    { rewrite HQ1. fold Qt. apply (Qmult_lt_r _ _ C); [lra|]. nra. }
    pose proof (round_gt_integer x (yd / c) Hnormal H53 Hgap_lo) as Hgt.
    pose proof (round_lt_integer x (yd / c + 1) Hnormal H53 Hgap_hi) as Hlt.
    fold Qt in Hgt.
    split; [|split; [exact Hgt | exact Hlt]].
    apply (bounded_not_too_large _ (yd / c + 1)); [lra | lra | lia].
Qed.

Lemma b64_quotient_between (c yd : Z) :
  1 <= c <= exact_integers -> 0 <= yd < exact_integers ->
  exists a,
    Binary64.truediv yd c = ret (Binary64.Finite a) /\
    if yd mod c =? 0
    then (a == inject_Z (yd / c))%Q
    else (inject_Z (yd / c) < a)%Q /\ (a < inject_Z (yd / c + 1))%Q.
Proof.
  intros Hc Hy. unfold Binary64.truediv.
  destruct (Z.eqb_spec c 0); [lia|].
  assert (HC : (1 <= inject_Z c)%Q)
    by (change 1%Q with (inject_Z 1); rewrite <- Zle_Qle; lia).
  destruct (round_quotient_between (inject_Z yd / inject_Z c) c yd Hc Hy)
    as [-> Hbetween]; [field; lra|].
  eexists. split; [reflexivity | exact Hbetween].
Qed.

Lemma int_of_float_floor (z : Q) : (0 <= z)%Q -> int_of_float z = Qfloor z.
Proof.
  destruct z as [n d]. unfold Qle. cbn. intros Hn.
  apply Z.quot_div_nonneg; lia.
Qed.

Lemma Qfloor_between (z : Q) (q : Z) :
  (inject_Z q <= z)%Q -> (z < inject_Z (q + 1))%Q -> Qfloor z = q.
Proof.
  intros Hlo Hhi. apply Qfloor_resp_le in Hlo. rewrite Qfloor_Z in Hlo.
  pose proof (Qfloor_le z) as Hf.
  assert (H : (inject_Z (Qfloor z) < inject_Z (q + 1))%Q) by lra.
  rewrite <- Zlt_Qlt in H. lia.
Qed.

(** Truncating a double between [q] and [q + 1] gives [q]. *)
Lemma int_of_quotient (a : Q) (c yd : Z) :
  1 <= c -> 0 <= yd ->
  (if yd mod c =? 0
   then (a == inject_Z (yd / c))%Q
   else (inject_Z (yd / c) < a)%Q /\ (a < inject_Z (yd / c + 1))%Q) ->
  int_of_float a = yd / c.
Proof.
  intros Hc Hy Hbetween.
  pose proof (Z.div_pos yd c ltac:(lia) ltac:(lia)) as Hq.
  assert (HQ0 : (0 <= inject_Z (yd / c))%Q)
    by (change 0%Q with (inject_Z 0); rewrite <- Zle_Qle; lia).
  destruct (yd mod c =? 0).
  - rewrite int_of_float_floor by (rewrite Hbetween; exact HQ0).
    rewrite Hbetween. apply Qfloor_Z.
  - destruct Hbetween as [Hlo Hhi].
    rewrite int_of_float_floor by lra.
    apply Qfloor_between; [lra | exact Hhi].
Qed.

(** ** The float64 mean of the lengths *)

Lemma b64_of_int_exact (n : Z) :
  Z.abs n <= exact_integers ->
  exists x, Binary64.of_int n = Binary64.Finite x /\ (x == inject_Z n)%Q.
Proof.
  intros Hn. eexists. split; [reflexivity|].
  apply round_integer; [reflexivity | exact Hn].
Qed.

Lemma sum_permutation (l l' : list Z) : Permutation l l' -> sum l = sum l'.
Proof.
  induction 1 as [|x l l' _ IH|x y l|l l' l'' _ IH1 _ IH2].
  - reflexivity.
  - rewrite !sum_cons, IH. reflexivity.
  - rewrite !sum_cons. lia.
  - now rewrite IH1.
Qed.

(** While the integers added stay within 2^53 no addition rounds, so every
    order and grouping gives the same double, the exact sum. *)
Lemma b64_float_sum_exact (l : list Z) (d : Binary64.double) :
  Binary64.float_sum_of l d ->
  Forall (fun n => 0 <= n) l -> sum l <= exact_integers ->
  exists x, d = Binary64.Finite x /\ (x == inject_Z (sum l))%Q.
Proof.
  induction 1 as [|n|l1 l2 d1 d2 _ IH1 _ IH2|l l' d Hperm _ IH]; intros Hnn Hmax.
  - exists 0%Q. split; reflexivity.
  - assert (Hn : 0 <= n) by (now apply Forall_inv in Hnn).
    rewrite sum_cons in Hmax. change (sum []) with 0 in Hmax.
    destruct (b64_of_int_exact n ltac:(lia)) as (x & Hx & Ex).
    exists x. split; [exact Hx|]. rewrite Ex, sum_cons.
    change (sum []) with 0. now rewrite Z.add_0_r.
  - apply Forall_app in Hnn. destruct Hnn as [Hnn1 Hnn2].
    rewrite sum_app in Hmax.
    pose proof (sum_nonneg l1 Hnn1) as H1. pose proof (sum_nonneg l2 Hnn2) as H2.
    destruct (IH1 Hnn1 ltac:(lia)) as (x1 & -> & E1).
    destruct (IH2 Hnn2 ltac:(lia)) as (x2 & -> & E2).
    destruct (b64_add_exact x1 x2 (sum l1) (sum l2) E1 E2 ltac:(lia)) as (r & Hr & Er).
    exists r. split; [exact Hr|]. now rewrite sum_app.
  - assert (Hnn' : Forall (fun n => 0 <= n) l).
    { rewrite Forall_forall in *. intros n Hin. apply Hnn.
      now apply (Permutation_in _ Hperm). }
    rewrite <- (sum_permutation _ _ Hperm) in *.
    exact (IH Hnn' Hmax).
Qed.

Lemma sequential_sum_meets_contract :
  Binary64.summation_contract Binary64.sequential_sum.
Proof.
  assert (Hloop : forall l pre acc,
            Binary64.float_sum_of pre acc ->
            Binary64.float_sum_of (pre ++ l)
              (fold_left (fun acc n => Binary64.add acc (Binary64.of_int n)) l acc)).
  { induction l as [|n l IH]; intros pre acc Hacc; cbn [fold_left].
    - now rewrite app_nil_r.
    - replace (pre ++ n :: l) with ((pre ++ [n]) ++ l)
        by (rewrite <- app_assoc; reflexivity).
      apply IH. apply Binary64.sum_of_parts; [exact Hacc | constructor]. }
  intros l. apply (Hloop l [] (Binary64.Finite 0)). constructor.
Qed.

(** The mean of the lengths of a partition is the double [year_days / c]. *)
Lemma b64_np_mean_between (float_sum : Binary64.summation) (c yd : Z) :
  Binary64.summation_contract float_sum ->
  1 <= c <= exact_integers -> 0 <= yd < exact_integers ->
  exists m,
    Binary64.np_mean float_sum (cycle_lengths (yd / c) (yd mod c) c) =
      Binary64.Finite m /\
    if yd mod c =? 0
    then (m == inject_Z (yd / c))%Q
    else (inject_Z (yd / c) < m)%Q /\ (m < inject_Z (yd / c + 1))%Q.
Proof.
  intros Hfs Hc Hy. unfold Binary64.np_mean.
  set (lengths := cycle_lengths (yd / c) (yd mod c) c).
  assert (Hsum : sum lengths = yd) by (apply sum_cycle_lengths; lia).
  destruct (b64_float_sum_exact lengths (float_sum lengths) (Hfs lengths))
    as (s & -> & Es).
  { apply cycle_lengths_nonneg; lia. }
  { rewrite Hsum. lia. }
  unfold lengths. rewrite len_cycle_lengths, Z.max_l by lia.
  destruct (b64_of_int_exact c ltac:(lia)) as (n & -> & En).
  rewrite Hsum in Es.
  assert (HC : (1 <= inject_Z c)%Q)
    by (change 1%Q with (inject_Z 1); rewrite <- Zle_Qle; lia).
  cbn [Binary64.div].
  destruct (round_quotient_between (s / n) c yd Hc Hy) as [Hfin Hbetween].
  { rewrite Es, En. field. lra. }
  destruct (Qcompare_spec n 0) as [E0|Hneg|Hpos]; [lra| lra |].
  rewrite Hfin. eexists. split; [reflexivity | exact Hbetween].
Qed.

(** ** The loop body on doubles *)

(** Rounding never passes a power of two. *)
Lemma round_le_pow2 (x : Q) (j : Z) :
  -1074 <= j -> (0 < x)%Q -> (x <= Binary64.pow2 j)%Q ->
  (Binary64.round x <= Binary64.pow2 j)%Q.
Proof.
  intros Hj Hx Hle. rewrite (round_of_positive x Hx).
  destruct (ilog2_bounds x Hx) as [Hlo _].
  assert (He : Binary64.ilog2 x < j + 1).
  { apply pow2_lt_inv. eapply Qle_lt_trans; [exact Hlo|].
    eapply Qle_lt_trans; [exact Hle|].
    rewrite pow2_add. change (Binary64.pow2 1) with 2%Q.
    pose proof (pow2_pos j). lra. }
  unfold Binary64.round_positive.
  set (k := Z.max (Binary64.ilog2 x - 52) (-1074)).
  assert (Hk : k <= j) by lia.
  pose proof (pow2_pos k) as Hp.
  assert (Hsplit : (inject_Z (2 ^ (j - k)) * Binary64.pow2 k == Binary64.pow2 j)%Q).
  { rewrite <- pow2_nonneg by lia. apply pow2_split. }
  assert (Hy : (x / Binary64.pow2 k <= inject_Z (2 ^ (j - k)))%Q).
  { apply Qle_shift_div_r; [exact Hp|]. rewrite Hsplit. exact Hle. }
  apply round_half_even_le in Hy. rewrite Zle_Qle in Hy.
  rewrite <- Hsplit. apply Qmult_le_r; assumption.
Qed.

Lemma b64_cycle_sum_returns (lgth : Z) :
  0 <= lgth <= no_overflow_days ->
  exists s, Binary64.cycle_sum lgth = ret (Binary64.Finite s).
Proof.
  unfold no_overflow_days. intros HL.
  unfold Binary64.cycle_sum, Binary64.truediv. cbn [Z.eqb].
  set (x := (inject_Z (lgth * (lgth + 1)) / inject_Z 2)%Q).
  assert (Hx0 : (0 <= x)%Q).
  { change (0 <= cycle_sum lgth)%Q. rewrite cycle_sum_triangular.
    change 0%Q with (inject_Z 0). rewrite <- Zle_Qle. apply triangular_nonneg_all. }
  assert (Hx : (x <= Binary64.pow2 1022)%Q).
  { change (cycle_sum lgth <= Binary64.pow2 1022)%Q.
    rewrite cycle_sum_triangular, pow2_nonneg, <- Zle_Qle by lia.
    pose proof (triangular_double lgth) as Hd.
    assert (Hsquare : 2 ^ 1022 = 2 ^ 511 * 2 ^ 511) by reflexivity.
    assert (Hpos : 0 < 2 ^ 511) by (apply Z.pow_pos_nonneg; lia).
    rewrite Hsquare. set (B := 2 ^ 511) in *. nia. }
  assert (Hr : (Binary64.round x <= Binary64.pow2 1022)%Q).
  { destruct (Qle_lt_or_eq _ _ Hx0) as [Hpos|Hzero].
    - apply round_le_pow2; [lia | exact Hpos | exact Hx].
    - rewrite (round_integer x 0); [|now symmetry | unfold exact_integers; lia].
      apply Qlt_le_weak, pow2_pos. }
  rewrite (bounded_not_too_large _ (2 ^ 1022) (round_nonneg x Hx0)).
  - eexists. reflexivity.
  - rewrite <- pow2_nonneg by lia. exact Hr.
  - apply Z.pow_lt_mono_r; lia.
Qed.

Lemma b64_loop_returns (lengths : list Z) (acc : Binary64.double) :
  Forall (fun L => 0 <= L <= no_overflow_days) lengths ->
  exists total, Binary64.grand_total_loop lengths acc = ret total.
Proof.
  intros H. revert acc. induction H as [|L lengths HL _ IH]; intros acc.
  - exists acc. reflexivity.
  - cbn [Binary64.grand_total_loop].
    destruct (b64_cycle_sum_returns L HL) as (s & ->). cbn [bind ret]. apply IH.
Qed.

(** For a year below 2^511 days no cycle sum overflows: the valuation on
    doubles returns, as the one on exact values does, and with the same
    partition. *)
Lemma b64_valuation_returns (c yd : Z) :
  1 <= c -> 0 <= yd < no_overflow_days ->
  exists total,
    Binary64.calculate_yearly_savings c yd =
      ret (total, cycle_lengths (yd / c) (yd mod c) c) /\
    calculate_yearly_savings c yd =
      ret (grand_total_of (cycle_lengths (yd / c) (yd mod c) c),
           cycle_lengths (yd / c) (yd mod c) c).
Proof.
  intros Hc Hy. unfold Binary64.calculate_yearly_savings, floordiv, pymod.
  destruct (Z.eqb_spec c 0); [lia|]. cbn [bind ret].
  destruct (b64_loop_returns (cycle_lengths (yd / c) (yd mod c) c) (Binary64.Finite 0))
    as (t & ->).
  - apply Forall_forall. intros L HL.
    pose proof (Z.div_pos yd c ltac:(lia) ltac:(lia)) as Hq.
    assert (Hqy : yd / c <= yd) by (apply Z.div_le_upper_bound; nia).
    apply cycle_lengths_members in HL. lia.
  - exists t. split; [reflexivity | apply calculate_yearly_savings_ok; lia].
Qed.

Lemma exact_integers_no_overflow : exact_integers <= no_overflow_days.
Proof. unfold exact_integers, no_overflow_days. apply Z.pow_le_mono_r; lia. Qed.

(** The row of a cycle count on doubles, field by field. *)
Lemma b64_cycle_record_ok (float_sum : Binary64.summation) (c yd : Z) :
  Binary64.summation_contract float_sum ->
  1 <= c <= exact_integers -> 0 <= yd < exact_integers ->
  exists total average,
    Binary64.calculate_yearly_savings c yd =
      ret (total, cycle_lengths (yd / c) (yd mod c) c) /\
    Binary64.truediv yd c = ret (Binary64.Finite average) /\
    (if yd mod c =? 0
     then (average == inject_Z (yd / c))%Q
     else (inject_Z (yd / c) < average)%Q /\ (average < inject_Z (yd / c + 1))%Q) /\
    Binary64.cycle_record float_sum c yd =
      ret {| Binary64.CyclesPerYear := c;
             Binary64.Label := dict_get cycle_labels c (str c);
             Binary64.TotalSavings := total;
             Binary64.TotalCouple := Binary64.mul total (Binary64.of_int 2);
             Binary64.MaxDailyAmount := if 0 <? yd mod c then yd / c + 1 else yd / c;
             Binary64.AvgDaysPerCycle := Binary64.Finite average;
             Binary64.Desc :=
               if yd mod c =? 0
               then (str (yd / c) ++ " days")%string
               else ("~" ++ str (yd / c) ++ " days")%string |}.
Proof.
  intros Hfs Hc Hy.
  pose proof exact_integers_no_overflow as Hrange.
  destruct (b64_valuation_returns c yd ltac:(lia) ltac:(lia)) as (total & Htotal & _).
  destruct (b64_quotient_between c yd Hc Hy) as (a & Ha & Hbetween).
  destruct (b64_np_mean_between float_sum c yd Hfs Hc Hy) as (m & Hm & Hmean).
  pose proof (Z.mod_pos_bound yd c ltac:(lia)) as Hr.
  exists total, a. split; [exact Htotal|]. split; [exact Ha|]. split; [exact Hbetween|].
  unfold Binary64.cycle_record. rewrite Htotal. cbn [bind ret].
  rewrite index0_cycle_lengths, len_set_cycle_lengths, pymax_cycle_lengths by lia.
  cbn [bind ret]. rewrite Hm, Ha. cbn [Binary64.int_of_double bind ret].
  rewrite (int_of_quotient m c yd ltac:(lia) ltac:(lia) Hmean).
  destruct (Z.eqb_spec (yd mod c) 0) as [E|E].
  - rewrite E. reflexivity.
  - destruct (Z.ltb_spec 0 (yd mod c)); [|lia]. reflexivity.
Qed.

Lemma b64_cycle_record_nonpositive (float_sum : Binary64.summation) (c yd : Z) :
  c <= 0 ->
  Binary64.cycle_record float_sum c yd =
    raise (if c =? 0 then ZeroDivisionError else IndexError).
Proof.
  intros Hc. unfold Binary64.cycle_record, Binary64.calculate_yearly_savings,
    floordiv, pymod.
  destruct (Z.eqb_spec c 0) as [->|Hne]; [reflexivity|].
  cbn [bind ret]. rewrite cycle_lengths_empty by lia. reflexivity.
Qed.

(** X7.  For [1 <= c <= 2^53] and [0 <= year_days < 2^53] the loop body
    returns a row, on doubles, and the double stored as [AvgDaysPerCycle]
    has [MaxDailyAmount] as its ceiling:
    [MaxDailyAmount - 1 < AvgDaysPerCycle <= MaxDailyAmount]. *)
Theorem average_and_peak (float_sum : Binary64.summation) (c year_days : Z) :
  Binary64.summation_contract float_sum ->
  1 <= c <= exact_integers -> 0 <= year_days < exact_integers ->
  exists row average,
    Binary64.cycle_record float_sum c year_days = ret row /\
    Binary64.AvgDaysPerCycle row = Binary64.Finite average /\
    (inject_Z (Binary64.MaxDailyAmount row) - 1 < average)%Q /\
    (average <= inject_Z (Binary64.MaxDailyAmount row))%Q.
Proof.
  intros Hfs Hc Hy.
  destruct (b64_cycle_record_ok float_sum c year_days Hfs Hc Hy)
    as (total & a & _ & _ & Hbetween & Hrow).
  eexists. exists a. split; [exact Hrow|]. split; [reflexivity|].
  cbn [Binary64.MaxDailyAmount].
  pose proof (Z.mod_pos_bound year_days c ltac:(lia)) as Hr.
  destruct (Z.eqb_spec (year_days mod c) 0) as [E0|Hne].
  - rewrite E0. cbn [Z.ltb Z.compare]. rewrite Hbetween. lra.
  - destruct (Z.ltb_spec 0 (year_days mod c)); [|lia].
    destruct Hbetween as [Hlo Hhi]. rewrite inject_Z_plus in *.
    change (inject_Z 1) with 1%Q in *. lra.
Qed.

Lemma average_and_peak_witness :
  exists row average,
    Binary64.cycle_record Binary64.sequential_sum 43 365 = ret row /\
    Binary64.AvgDaysPerCycle row = Binary64.Finite average /\
    (inject_Z (Binary64.MaxDailyAmount row) - 1 < average)%Q /\
    (average <= inject_Z (Binary64.MaxDailyAmount row))%Q.
Proof.
  apply (average_and_peak Binary64.sequential_sum 43 365);
    [exact sequential_sum_meets_contract | unfold exact_integers; lia
    | unfold exact_integers; lia].
Defined.

(** X6.  For [1 <= c <= 2^53] and [0 <= year_days < 2^53] the description
    of a cycle row, computed on doubles with any float64 summation, is
    ["<q> days"] when [c] divides [year_days] and ["~<q> days"] otherwise,
    where [q = year_days // c]: the mean is cut to an integer, not rounded,
    so the figure shown is the shortest cycle length. *)
Theorem cycle_description (float_sum : Binary64.summation) (c year_days : Z) :
  Binary64.summation_contract float_sum ->
  1 <= c <= exact_integers -> 0 <= year_days < exact_integers ->
  exists row,
    Binary64.cycle_record float_sum c year_days = ret row /\
    Binary64.Desc row =
      (if year_days mod c =? 0
       then (str (year_days / c) ++ " days")%string
       else ("~" ++ str (year_days / c) ++ " days")%string).
Proof.
  intros Hfs Hc Hy.
  destruct (b64_cycle_record_ok float_sum c year_days Hfs Hc Hy)
    as (total & a & _ & _ & _ & Hrow).
  eexists. split; [exact Hrow | reflexivity].
Qed.

Lemma cycle_description_witness :
  exists row,
    Binary64.cycle_record Binary64.sequential_sum 6 365 = ret row /\
    Binary64.Desc row =
      (if 365 mod 6 =? 0
       then (str (365 / 6) ++ " days")%string
       else ("~" ++ str (365 / 6) ++ " days")%string).
Proof.
  apply (cycle_description Binary64.sequential_sum 6 365);
    [exact sequential_sum_meets_contract | unfold exact_integers; lia
    | unfold exact_integers; lia].
Defined.

(** Outside that range the doubles show: three cycles of a year of
    27021597764222981 days are described by the rounded mean, one more than
    the shortest length; and on a 365-day year the average of 43 cycles is
    the double nearest to 365/43, which is not 365/43. *)
Lemma doubles_outside_the_exact_range :
  (exists row,
     Binary64.cycle_record Binary64.sequential_sum 3 27021597764222981 = ret row /\
     Binary64.Desc row = "~9007199254740994 days"%string /\
     27021597764222981 / 3 = 9007199254740993) /\
  (exists row average,
     Binary64.cycle_record Binary64.sequential_sum 43 365 = ret row /\
     Binary64.AvgDaysPerCycle row = Binary64.Finite average /\
     (average == 4778528674390207 # 562949953421312)%Q /\
     ~ (average * 43 == 365)%Q).
Proof.
  split.
  - eexists. split; [vm_compute; reflexivity|]. split; reflexivity.
  - eexists. eexists. split; [vm_compute; reflexivity|].
    split; [reflexivity|]. split; [reflexivity|].
    intros H. vm_compute in H. discriminate H.
Qed.

(** ** Which inputs give a table *)

Lemma b64_cycle_records_ok (float_sum : Binary64.summation) (tc : list Z) (yd : Z)
  (data : list Binary64.StrategyRecord) :
  Binary64.summation_contract float_sum ->
  0 <= yd < exact_integers ->
  Forall (fun c => 1 <= c <= exact_integers) tc ->
  exists rows,
    Binary64.cycle_records float_sum tc yd data = ret (data ++ rows) /\
    map Binary64.CyclesPerYear rows = tc.
Proof.
  intros Hfs Hy Htc. revert data.
  induction Htc as [|c tc Hc _ IH]; intros data; cbn [Binary64.cycle_records].
  - exists []. rewrite app_nil_r. split; reflexivity.
  - destruct (b64_cycle_record_ok float_sum c yd Hfs Hc Hy)
      as (total & a & _ & _ & _ & ->).
    cbn [bind ret].
    match goal with
    | |- context [data ++ [?r]] => destruct (IH (data ++ [r])) as (rows & -> & Hids);
                                   exists (r :: rows)
    end.
    rewrite <- app_assoc. split; [reflexivity|].
    cbn [map Binary64.CyclesPerYear]. now rewrite Hids.
Qed.

Lemma b64_cycle_records_fail (float_sum : Binary64.summation) (pre post : list Z)
  (c yd : Z) (data : list Binary64.StrategyRecord) :
  Binary64.summation_contract float_sum ->
  0 <= yd < exact_integers ->
  Forall (fun c => 1 <= c <= exact_integers) pre -> c <= 0 ->
  Binary64.cycle_records float_sum (pre ++ c :: post) yd data =
    raise (if c =? 0 then ZeroDivisionError else IndexError).
Proof.
  intros Hfs Hy Hpre Hc. revert data.
  induction Hpre as [|p pre Hp _ IH]; intros data;
    cbn [app Binary64.cycle_records].
  - now rewrite b64_cycle_record_nonpositive.
  - destruct (b64_cycle_record_ok float_sum p yd Hfs Hp Hy)
      as (total & a & _ & _ & _ & ->).
    cbn [bind ret]. apply IH.
Qed.

(** X8.  For [0 <= year_days < 2^53] and cycle counts up to 2^53, the loop
    of [generate_comparison_data], run on doubles, returns its rows exactly
    when every requested count is at least 1, one row per count and in the
    order of the counts, and the table is then returned.  Otherwise the
    first count [<= 0] decides the exception, [ZeroDivisionError] for 0 and
    [IndexError] for a negative count: in this range nothing overflows, and
    the [ValueError] of [max] on an empty list never escapes. *)
Theorem generate_comparison_data_outcome (sort_values : sorter)
  (float_sum : Binary64.summation) (target_cycles : list Z) (year_days : Z) :
  Binary64.summation_contract float_sum ->
  0 <= year_days < exact_integers ->
  Forall (fun c => c <= exact_integers) target_cycles ->
  (Forall (fun c => 1 <= c) target_cycles /\
   exists rows table,
     Binary64.cycle_records float_sum target_cycles year_days [] = ret rows /\
     map Binary64.CyclesPerYear rows = target_cycles /\
     generate_comparison_data sort_values target_cycles year_days = ret table) \/
  (exists pre c post,
     target_cycles = pre ++ c :: post /\
     Forall (fun c => 1 <= c) pre /\ c <= 0 /\
     Binary64.cycle_records float_sum target_cycles year_days [] =
       raise (if c =? 0 then ZeroDivisionError else IndexError) /\
     generate_comparison_data sort_values target_cycles year_days =
       raise (if c =? 0 then ZeroDivisionError else IndexError)).
Proof.
  intros Hfs Hy Hmax.
  destruct (first_nonpositive target_cycles)
    as [Hall|(pre & c & post & -> & Hpre & Hc)].
  - left. split; [exact Hall|].
    destruct (b64_cycle_records_ok float_sum target_cycles year_days [] Hfs Hy)
      as (rows & Hrows & Hids).
    { rewrite Forall_forall in *. intros c Hin.
      split; [now apply Hall | now apply Hmax]. }
    destruct (generate_comparison_data_ok sort_values target_cycles year_days Hall)
      as (exact_rows & _ & _ & Hgen).
    exists rows. eexists. split; [exact Hrows|]. split; [exact Hids | exact Hgen].
  - right. exists pre, c, post.
    split; [reflexivity|]. split; [exact Hpre|]. split; [exact Hc|]. split.
    + apply b64_cycle_records_fail; [exact Hfs | exact Hy | | exact Hc].
      apply Forall_app in Hmax. destruct Hmax as [Hmax _].
      rewrite Forall_forall in *. intros p Hin.
      split; [now apply Hpre | now apply Hmax].
    + unfold generate_comparison_data, build_data.
      now rewrite cycle_records_fail.
Qed.

Lemma generate_comparison_data_outcome_witness :
  (Forall (fun c => 1 <= c) [2; 0; 5] /\
   exists rows table,
     Binary64.cycle_records Binary64.sequential_sum [2; 0; 5] 365 [] = ret rows /\
     map Binary64.CyclesPerYear rows = [2; 0; 5] /\
     generate_comparison_data stable_sort_values [2; 0; 5] 365 = ret table) \/
  (exists pre c post,
     [2; 0; 5] = pre ++ c :: post /\
     Forall (fun c => 1 <= c) pre /\ c <= 0 /\
     Binary64.cycle_records Binary64.sequential_sum [2; 0; 5] 365 [] =
       raise (if c =? 0 then ZeroDivisionError else IndexError) /\
     generate_comparison_data stable_sort_values [2; 0; 5] 365 =
       raise (if c =? 0 then ZeroDivisionError else IndexError)).
Proof.
  apply (generate_comparison_data_outcome stable_sort_values
           Binary64.sequential_sum [2; 0; 5] 365).
  - exact sequential_sum_meets_contract.
  - unfold exact_integers. lia.
  - unfold exact_integers. repeat constructor; lia.
Defined.

(** ** The fixed strategies named by the specification *)


